(** * Graphlet hashing of RNA structural graphs (RNAGlib, [utils/graphlet_hash.py])

    A shallow embedding of the graphlet hashing pipeline: the edge-label
    canonicalisation and Weisfeiler-Lehman digest of [Hasher.hash], graphlet
    extraction, the hash table of [build_hash_table] and the cache of
    pairwise distances kept by [GED_hashtable_hashed]. *)

From Stdlib Require Import ZArith Lia.
From Stdlib Require Import Ascii String.
From stdpp Require Import base decidable option list sorting.
From stdpp Require Import strings gmap pretty.

#[local] Set Warnings "-clear-no-such-hyp".

(** ** Python's [sorted] on characters and on strings

    [sorted] orders characters by code point and strings lexicographically
    by code point.  Both orders are total and antisymmetric, so the sorted
    list is determined by the multiset of its elements. *)

Module PySorted.

Definition ascii_le (a b : ascii) : Prop :=
  (N_of_ascii a <= N_of_ascii b)%N.

#[global] Instance ascii_le_dec : RelDecision ascii_le.
Proof. intros a b. unfold ascii_le. apply _. Defined.

#[global] Instance ascii_le_trans : Transitive ascii_le.
Proof. intros a b c. unfold ascii_le. lia. Qed.

#[global] Instance ascii_le_total : Total ascii_le.
Proof. intros a b. unfold ascii_le. lia. Qed.

#[global] Instance ascii_le_antisym : AntiSymm (=) ascii_le.
Proof.
    intros a b Hab Hba. unfold ascii_le in *.
    rewrite <- (ascii_N_embedding a), <- (ascii_N_embedding b).
    f_equal. lia.
Qed.

(** The value [sorted(l)] has, for the order [R]. *)
Definition sorted {A : Type} (R : relation A) `{!RelDecision R}
    (l : list A) : list A := merge_sort R l.

(** [sorted(s)] for a string [s]: the list of its characters in order. *)
Definition sorted_chars (s : string) : list ascii :=
  sorted ascii_le (list_ascii_of_string s).

(** [sorted(l)] for a list of strings. *)
Definition sorted_strs (l : list string) : list string :=
  sorted String.le l.

(** ["".join(l)] for a list of characters and for a list of strings. *)
Definition join_chars (l : list ascii) : string := string_of_list_ascii l.

Definition join (l : list string) : string := foldr String.append "" l.

End PySorted.

Import PySorted.

(** ** Graphs

    A networkx [Graph] / [DiGraph] whose attribute values are strings.
    [node_data] is the node dictionary ([G.nodes[n]] is the attribute
    dictionary of [n]) and [adj] the adjacency dictionary ([G[u][v]] is the
    attribute dictionary of the edge from [u] to [v]).  Node keys are the
    composite keys of the corpus, [(file, (chain, position))].

    An undirected graph keeps every edge under both orientations, and in
    networkx the two entries are one shared dictionary: here the two entries
    are kept equal, see [set_edge_attr] and [wf_graph]. *)

Definition node : Type := string * (string * Z).

Abbreviation attrs := (gmap string string).

Record Graph : Type := mkGraph {
  is_directed : bool;
  node_data : gmap node attrs;
  adj : gmap node (gmap node attrs)
}.

(** [G.nodes()] *)
Definition G_nodes (G : Graph) : list node := (map_to_list (node_data G)).*1.

(** [G[u]]: the neighbours of [u] with the attributes of the connecting edge
    (the successors of [u] when the graph is directed). *)
Definition G_adj (G : Graph) (u : node) : gmap node attrs :=
  default ∅ (adj G !! u).

(** [G[u][v]] *)
Definition G_getitem (G : Graph) (u v : node) : option attrs :=
  G_adj G u !! v.

(** [G.edges()].  A directed graph reports every adjacency entry; an
    undirected graph reports an edge once, from the endpoint met first. *)
Fixpoint edges_seen (seen : gset node)
    (l : list (node * gmap node attrs)) : list (node * node) :=
  match l with
  | [] => []
  | (n, nbrs) :: l =>
      ((λ nbr, (n, nbr)) <$> filter (λ nbr, nbr ∉ seen) (map_to_list nbrs).*1)
      ++ edges_seen ({[ n ]} ∪ seen) l
  end.

Definition G_edges (G : Graph) : list (node * node) :=
  if is_directed G
  then '(n, nbrs) ← map_to_list (adj G); (λ nbr, (n, nbr)) <$> (map_to_list nbrs).*1
  else edges_seen ∅ (map_to_list (adj G)).

(** [G[u][v][key] = val].  In an undirected graph [G[v][u]] is the same
    dictionary, so the entry of the other orientation has the new value too. *)
Definition set_adj_attr (u v : node) (key val : string)
    (a : gmap node (gmap node attrs)) : gmap node (gmap node attrs) :=
  alter (alter (insert key val) v) u a.

Definition set_edge_attr (G : Graph) (u v : node) (key val : string) : Graph :=
  mkGraph (is_directed G) (node_data G)
    (if is_directed G
     then set_adj_attr u v key val (adj G)
     else set_adj_attr v u key val (set_adj_attr u v key val (adj G))).

(** The invariants networkx maintains: every node has an adjacency entry,
    neighbours are nodes, and an undirected graph is symmetric. *)
Definition wf_graph (G : Graph) : Prop :=
  dom (adj G) = dom (node_data G) ∧
  map_Forall (λ u nbrs,
    map_Forall (λ v dd,
      v ∈ dom (node_data G) ∧
      (is_directed G = false → G_getitem G v u = Some dd)) nbrs) (adj G).

#[global] Instance wf_graph_dec G : Decision (wf_graph G).
Proof. unfold wf_graph. apply _. Defined.

(** ** The hasher

    [Hasher.__init__] stores its arguments; [hash_table] starts as [None]
    and is filled by [get_hash_table]. *)

Record Hasher : Type := mkHasher {
  method : string;
  string_hash_size : nat;
  graphlet_hash_size : nat;
  symmetric_edges : bool;
  wl_hops : nat;
  label : string;
  directed : bool
}.

(** [Hasher()] with the default arguments. *)
Definition Hasher_default : Hasher :=
  mkHasher "WL" 8 16 true 2 "LW" true.

(** *** Edge-label canonicalisation

    What the body of the loop of [Hasher.hash] makes of one label: the
    backbone label is left alone, any other label keeps its first character
    and has the rest sorted.  [label[0]] raises on the empty string. *)
Definition canonicalize (lbl : string) : option string :=
  if decide (lbl ≠ "B53") then
    match lbl with
    | "" => None
    | String prefix suffix =>
        Some (String prefix (join_chars (sorted_chars suffix)))
    end
  else Some lbl.

(** One round of the loop [for u, v in G.edges()], on the graph as it is
    when the round starts. *)
Definition canon_edge (key : string) (G : Graph) (uv : node * node)
    : option Graph :=
  let '(u, v) := uv in
  dd ← G_getitem G u v;
  lbl ← dd !! key;
  if decide (lbl ≠ "B53") then
    match lbl with
    | "" => None
    | String prefix suffix =>
        Some (set_edge_attr G u v key
                (String prefix (join_chars (sorted_chars suffix))))
    end
  else Some G.

(** A [for] loop whose body may raise: the first exception ends it. *)
Fixpoint for_each {S X : Type} (body : S → X → option S) (s : S)
    (xs : list X) : option S :=
  match xs with
  | [] => Some s
  | x :: xs => s' ← body s x; for_each body s' xs
  end.

(** The [if self.symmetric_edges:] block of [Hasher.hash]. *)
Definition canonicalize_edges (self : Hasher) (G : Graph) : option Graph :=
  if symmetric_edges self
  then for_each (canon_edge (label self)) G (G_edges G)
  else Some G.

(** ** Weisfeiler-Lehman refinement *)

(** A dictionary comprehension [{k: f(k) for k in keys}] whose value
    expression may raise. *)
Definition dict_comp {V : Type} (f : node → option V) (keys : list node)
    : option (gmap node V) :=
  list_to_map <$> mapM (λ k, v ← f k; Some (k, v)) keys.

(** [collections.Counter(values)] *)
Definition Counter (values : list string) : gmap string nat :=
  foldr (λ x c, <[x := S (default 0 (c !! x))]> c) ∅ values.

(** [nei_agg_edges(G, n, node_labels, edge_labels)] *)
Definition nei_agg_edges (G : Graph) (n : node)
    (node_labels : gmap node string) (edge_labels : string) : option string :=
  own ← node_labels !! n;
  x ← mapM (λ '(nei, dd),
              e ← dd !! edge_labels;
              l ← node_labels !! nei;
              Some (e +:+ l)) (map_to_list (G_adj G n));
  Some (join (sorted_strs (own :: x))).

(** [WL_step_edges(G, labels)], with the attribute name the hasher uses. *)
Definition WL_step_edges (G : Graph) (labels : gmap node string)
    (edge_labels : string) : option (gmap node string) :=
  dict_comp (λ n, nei_agg_edges G n labels edge_labels) (G_nodes G).

Section WL.
(** The fixed-length digest of the sorted label counts (a keyed
      cryptographic hash of their printed form); any function will do. *)
Variable digest_of_counts : list (string * nat) → string.

(** The initial labels: the node attribute when one is named, the empty
      string when only an edge attribute is. *)
Definition init_node_labels (G : Graph) (node_attr : option string)
      : option (gmap node string) :=
    dict_comp (λ n,
      match node_attr with
      | Some a => dd ← node_data G !! n; dd !! a
      | None => Some ""
      end) (G_nodes G).

Fixpoint wl_iterate (G : Graph) (edge_attr : string) (iterations : nat)
      (node_labels : gmap node string) : option (gmap node string) :=
    match iterations with
    | O => Some node_labels
    | S k =>
        node_labels' ← WL_step_edges G node_labels edge_attr;
        wl_iterate G edge_attr k node_labels'
    end.

(** Modelled from the spec: the graph hash [wl] that [Hasher.hash] calls is
      imported from networkx and is not part of the sources.  Following §4.3:
      [iterations] rounds of the refinement step (the one [WL_step_edges]
      spells out) from the initial labels, then one digest of the final
      labels, counted and sorted by label. *)
Definition wl (G : Graph) (edge_attr : string) (node_attr : option string)
      (iterations : nat) : option string :=
    l0 ← init_node_labels G node_attr;
    lK ← wl_iterate G edge_attr iterations l0;
    Some (digest_of_counts
            (merge_sort (λ x y, String.le x.1 y.1)
               (map_to_list (Counter (map_to_list lK).*2)))).

(** [Hasher.hash(G)]: the graph as the call leaves it, and the digest.
      [None] when an exception is raised. *)
Definition Hasher_hash (self : Hasher) (G : Graph) : option (Graph * string) :=
    G' ← canonicalize_edges self G;
    h ← wl G' (label self) None (wl_hops self);
    Some (G', h).
End WL.

(** ** Graphlet extraction *)

(** The nodes one hop away from [front], along edges that carry [label]. *)
Definition bfs_ring (G : Graph) (label : string) (front : gset node)
    : gset node :=
  list_to_set
    (n ← elements front;
     (map_to_list (filter (λ e, is_Some (e.2 !! label)) (G_adj G n))).*1).

(** Modelled from the spec: [bfs_expand] lives in [utils.graph_utils], which
    is not part of the sources.  Following §4.2 it is a breadth-first
    traversal from the initial nodes out to [depth] hops, a hop being an edge
    that carries the label attribute; it returns the set of visited nodes. *)
Fixpoint bfs_expand (G : Graph) (initial_nodes : gset node) (depth : nat)
    (label : string) : gset node :=
  match depth with
  | O => initial_nodes
  | S d => initial_nodes ∪ bfs_expand G (bfs_ring G label initial_nodes) d label
  end.

(** [G.subgraph(nbunch).copy()]: the graph induced on the nodes of [G] that
    are in [nbunch], with the attribute dictionaries of [G]. *)
Definition subgraph_copy (G : Graph) (nbunch : gset node) : Graph :=
  mkGraph (is_directed G)
    (filter (λ e, e.1 ∈ nbunch) (node_data G))
    ((λ nbrs : gmap node attrs, filter (λ e, e.1 ∈ nbunch) nbrs)
       <$> filter (λ e, e.1 ∈ nbunch) (adj G)).

(** [extract_graphlet(G, n, size, label)] *)
Definition extract_graphlet (G : Graph) (n : node) (size : nat)
    (label : string) : Graph :=
  subgraph_copy G (bfs_expand G {[ n ]} size label).

(** ** The hash table *)

(** A bucket is [{'graphs': [...]}] in append mode and
    [{'graph': g, 'count': c}] otherwise. *)
Inductive bucket : Type :=
  | BucketGraphs (graphs : list Graph)
  | BucketCount (graph : Graph) (count : nat).

(** How a loop over mutable state ends: normally, or by an exception, which
    leaves the state as it is at that moment. *)
Inductive outcome (S : Type) : Type :=
  | Done (s : S)
  | Raised (s : S).
Arguments Done {S} s.
Arguments Raised {S} s.

Fixpoint for_each_st {S X : Type} (body : S → X → outcome S) (s : S)
    (xs : list X) : outcome S :=
  match xs with
  | [] => Done s
  | x :: xs =>
      match body s x with
      | Done s' => for_each_st body s' xs
      | Raised s' => Raised s'
      end
  end.

(** [l[:k]] *)
Definition slice_to {X : Type} (l : list X) (k : Z) : list X :=
  if (0 <=? k)%Z then take (Z.to_nat k) l
  else take (length l - Z.to_nat (- k)) l.

(** The [if h not in hash_table: ... else: ...] block.  Reading ['graphs'] or
    ['count'] from a bucket of the other mode raises. *)
Definition add_graphlet (mode : string) (hash_table : gmap string bucket)
    (h : string) (n : Graph) : option (gmap string bucket) :=
  match hash_table !! h with
  | None =>
      if decide (mode = "append")
      then Some (<[h := BucketGraphs [n]]> hash_table)
      else Some (<[h := BucketCount n 1]> hash_table)
  | Some b =>
      if decide (mode = "append") then
        match b with
        | BucketGraphs graphs => Some (<[h := BucketGraphs (graphs ++ [n])]> hash_table)
        | BucketCount _ _ => None
        end
      else
        match b with
        | BucketCount graph count => Some (<[h := BucketCount graph (count + 1)]> hash_table)
        | BucketGraphs _ => None
        end
  end.

Section build.
Variable digest_of_counts : list (string * nat) → string.
(** The collaborators of the builder that are not part of the sources:
    [os.listdir], [load_json] of a directory entry ([None] when it raises),
    and networkx's [G.to_undirected()]. *)
Variable listdir : string → list string.
Variable load_json : string → string → option Graph.
Variable to_undirected : Graph → Graph.

(** One round of [for i, n in enumerate(todo)]. *)
Definition hash_into (hasher : Hasher) (mode : string)
    (hash_table : gmap string bucket) (n : Graph)
    : outcome (gmap string bucket) :=
  match Hasher_hash digest_of_counts hasher n with
  | None => Raised hash_table
  | Some (n', h) =>
      match add_graphlet mode hash_table h n' with
      | Some hash_table' => Done hash_table'
      | None => Raised hash_table
      end
  end.

(** The list [todo] of one graph. *)
Definition todo_of (graphlets : bool) (graphlet_size : nat) (label : string)
    (G : Graph) : list Graph :=
  if graphlets
  then (λ n, extract_graphlet G n graphlet_size label) <$> G_nodes G
  else [G].

(** One round of [for g in tqdm(graphlist)]. *)
Definition build_graph (graph_dir : string) (hasher : Hasher)
    (graphlets : bool) (graphlet_size : nat) (mode label : string)
    (directed : bool) (hash_table : gmap string bucket) (g : string)
    : outcome (gmap string bucket) :=
  match load_json graph_dir g with
  | None => Raised hash_table
  | Some G =>
      let G := if directed then G else to_undirected G in
      for_each_st (hash_into hasher mode) hash_table
        (todo_of graphlets graphlet_size label G)
  end.

Definition graphlist_of (graph_dir : string) (max_graphs : Z) : list string :=
  let graphlist := listdir graph_dir in
  if decide (max_graphs ≠ 0%Z) then slice_to graphlist max_graphs
  else graphlist.

(** The two nested loops, with the table as they leave it. *)
Definition build_loop (graph_dir : string) (hasher : Hasher)
    (graphlets : bool) (max_graphs : Z) (graphlet_size : nat)
    (mode label : string) (directed : bool) : outcome (gmap string bucket) :=
  for_each_st
    (build_graph graph_dir hasher graphlets graphlet_size mode label directed)
    ∅ (graphlist_of graph_dir max_graphs).

(** [build_hash_table(graph_dir, hasher, graphlets, max_graphs, graphlet_size,
    mode, label, directed)]: the table returned, [None] when an exception
    leaves the function. *)
Definition build_hash_table (graph_dir : string) (hasher : Hasher)
    (graphlets : bool) (max_graphs : Z) (graphlet_size : nat)
    (mode label : string) (directed : bool) : option (gmap string bucket) :=
  match build_loop graph_dir hasher graphlets max_graphs graphlet_size
          mode label directed with
  | Done hash_table => Some hash_table
  | Raised _ => None
  end.

(** [Hasher.get_hash_table(graph_dir, max_graphs)]: the value assigned to
    [self.hash_table]. *)
Definition get_hash_table (self : Hasher) (graph_dir : string)
    (max_graphs : Z) : option (gmap string bucket) :=
  build_hash_table graph_dir self true max_graphs (wl_hops self) "count"
    (label self) (directed self).

(** [Hasher.get_node_hash(G, n)] *)
Definition get_node_hash (self : Hasher) (G : Graph) (n : node)
    : option string :=
  snd <$> Hasher_hash digest_of_counts self
            (extract_graphlet G n (wl_hops self) (label self)).
End build.

(** ** The table of pairwise distances *)

(** What a call can raise: a [KeyError] of a dictionary, or the failure of
    the distance oracle (a timeout or a computation error). *)
Inductive exn (E : Type) : Type :=
  | KeyError
  | OracleFailure (e : E).
Arguments KeyError {E}.
Arguments OracleFailure {E} e.

(** The nested dictionary [{h_i: {h_j: d}}].  It is a plain [dict], or a
    [defaultdict(dict)], whose [GED_table[h]] creates an empty inner
    dictionary for a digest it does not hold. *)
Record GEDTable (float : Type) : Type := mkGEDTable {
  default_factory : bool;
  entries : gmap string (gmap string float)
}.
Arguments mkGEDTable {float} _ _.
Arguments default_factory {float} _.
Arguments entries {float} _.

Section GED.
(** Floating-point scalars and the operations on them are kept abstract. *)
Variable float : Type.
Variable np_exp : float → float.
Variable fmul fsub : float → float → float.
Variable fneg : float → float.
Variable f_one : float.
(** The distance oracle [ged(G, H, timeout=timeout)] of [ged.rna_ged_nx],
    which is not part of the sources: a distance, or a failure. *)
Variable oracle_error : Type.
Variable ged : Graph → Graph → Z → float + oracle_error.

(** The state a call works on: the table, and the calls made to the oracle
    so far. *)
Record world : Type := mkWorld {
  GED_table : GEDTable float;
  ged_calls : list (Graph * Graph * Z)
}.

(** [GED_table[a]] *)
Definition ged_getitem (T : GEDTable float) (a : string)
    : option (gmap string float) * GEDTable float :=
  match entries T !! a with
  | Some d => (Some d, T)
  | None =>
      if default_factory T
      then (Some ∅, mkGEDTable (default_factory T) (<[a := ∅]> (entries T)))
      else (None, T)
  end.

(** [GED_table[a][b]] *)
Definition ged_lookup (T : GEDTable float) (a b : string)
    : option float * GEDTable float :=
  let '(d, T') := ged_getitem T a in (d ≫= (.!! b), T').

(** [GED_table[a][b] = x] *)
Definition ged_store (T : GEDTable float) (a b : string) (x : float)
    : option (GEDTable float) :=
  let '(d, T') := ged_getitem T a in
  match d with
  | Some d => Some (mkGEDTable (default_factory T') (<[a := <[b := x]> d]> (entries T')))
  | None => None
  end.

(** [graphlet_table[h]['graph']] *)
Definition representative (graphlet_table : gmap string bucket) (h : string)
    : option Graph :=
  match graphlet_table !! h with
  | Some (BucketCount graph _) => Some graph
  | _ => None
  end.

(** [GED_hashtable_hashed(h_G, h_H, GED_table, graphlet_table, normed,
    max_edges, beta, timeout, similarity)]: the value returned or the
    exception raised, and the state the call leaves. *)
Definition GED_hashtable_hashed (h_G h_H : string) (w : world)
    (graphlet_table : gmap string bucket) (normed : bool) (max_edges : Z)
    (beta : float) (timeout : Z) (similarity : bool)
    : (float + exn oracle_error) * world :=
  let '(r1, T1) := ged_lookup (GED_table w) h_G h_H in
  match r1 with
  | Some x => (inl x, mkWorld T1 (ged_calls w))
  | None =>
  let '(r2, T2) := ged_lookup T1 h_H h_G in
  match r2 with
  | Some x => (inl x, mkWorld T2 (ged_calls w))
  | None =>
  match representative graphlet_table h_G with
  | None => (inr KeyError, mkWorld T2 (ged_calls w))
  | Some G =>
  match representative graphlet_table h_H with
  | None => (inr KeyError, mkWorld T2 (ged_calls w))
  | Some H =>
  let calls := (ged_calls w ++ [(G, H, timeout)]) in
  match ged G H timeout with
  | inr e => (inr (OracleFailure e), mkWorld T2 calls)
  | inl distance =>
      if similarity then
        let similarity := np_exp (fmul (fneg beta) distance) in
        match ged_store T2 h_G h_H similarity with
        | Some T3 => (inl similarity, mkWorld T3 calls)
        | None => (inr KeyError, mkWorld T2 calls)
        end
      else
        let distance :=
          if normed then fsub f_one (np_exp (fmul (fneg beta) distance))
          else distance in
        match ged_store T2 h_G h_H distance with
        | Some T3 => (inl distance, mkWorld T3 calls)
        | None => (inr KeyError, mkWorld T2 calls)
        end
  end end end end end.

(** The scalar the table holds for the ordered pair [(a, b)], if any. *)
Definition cached (T : GEDTable float) (a b : string) : option float :=
  entries T !! a ≫= (.!! b).

(** The scalar a call computes from the distance [d] of the oracle. *)
Definition fresh_value (similarity normed : bool) (beta d : float) : float :=
  if similarity then np_exp (fmul (fneg beta) d)
  else if normed then fsub f_one (np_exp (fmul (fneg beta) d))
  else d.
End GED.

(** ** Graphs as objects: shared attribute dictionaries

    In networkx the attribute dictionary of an edge is an object: a subgraph
    view hands out the dictionaries of the graph it views, [copy()] makes
    new ones, and the loop of [Hasher.hash] writes into the dictionaries of
    the graph it is given.  Here a graph holds, for every adjacency entry,
    the location of its dictionary in a store; the two orientations of an
    undirected edge hold the same location.  Node attributes are never
    written by the code and stay values. *)

Module Heap.

Abbreviation loc := positive.
Abbreviation store := (gmap loc attrs).

Record HGraph : Type := mkHGraph {
  h_directed : bool;
  h_node_data : gmap node attrs;
  h_adj : gmap node (gmap node loc)
}.

(** The graph an object graph reads as, in a store. *)
Definition snapshot (σ : store) (G : HGraph) : Graph :=
  mkGraph (h_directed G) (h_node_data G)
    ((λ nbrs : gmap node loc,
        (λ l : loc, default (∅ : attrs) (σ !! l)) <$> nbrs) <$> h_adj G).

(** The location of [G[u][v]]. *)
Definition h_getitem (G : HGraph) (u v : node) : option loc :=
  default ∅ (h_adj G !! u) !! v.

(** The locations a graph holds. *)
Definition h_locs (G : HGraph) : gset loc :=
  list_to_set (e ← map_to_list (h_adj G); (map_to_list e.2).*2).

(** [G.edges()], as [G_edges]. *)
Fixpoint h_edges_seen (seen : gset node)
    (l : list (node * gmap node loc)) : list (node * node) :=
  match l with
  | [] => []
  | (n, nbrs) :: l =>
      ((λ nbr, (n, nbr)) <$> filter (λ nbr, nbr ∉ seen) (map_to_list nbrs).*1)
      ++ h_edges_seen ({[ n ]} ∪ seen) l
  end.

Definition h_edges (G : HGraph) : list (node * node) :=
  if h_directed G
  then '(n, nbrs) ← map_to_list (h_adj G); (λ nbr, (n, nbr)) <$> (map_to_list nbrs).*1
  else h_edges_seen ∅ (map_to_list (h_adj G)).

(** [G.subgraph(nbunch)]: a view, with the dictionaries of [G]. *)
Definition h_subgraph (G : HGraph) (nbunch : gset node) : HGraph :=
  mkHGraph (h_directed G)
    (filter (λ e, e.1 ∈ nbunch) (h_node_data G))
    ((λ nbrs : gmap node loc, filter (λ e, e.1 ∈ nbunch) nbrs)
       <$> filter (λ e, e.1 ∈ nbunch) (h_adj G)).

(** A location above every location in use. *)
Definition store_base (σ : store) : loc :=
  map_fold (λ l _ b, Pos.max l b) 1%positive σ.

(** [G.copy()]: every dictionary of [G] is copied to a new location, the
    same one for the two orientations of an undirected edge. *)
Definition h_copy (σ : store) (G : HGraph) : store * HGraph :=
  let b := store_base σ in
  (foldr (λ l σ', <[Pos.add b l := default ∅ (σ !! l)]> σ') σ
     (elements (h_locs G)),
   mkHGraph (h_directed G) (h_node_data G)
     ((λ nbrs : gmap node loc, Pos.add b <$> nbrs) <$> h_adj G)).

(** [extract_graphlet(G, n, size, label)] *)
Definition h_extract_graphlet (σ : store) (G : HGraph) (n : node)
    (size : nat) (label : string) : store * HGraph :=
  h_copy σ (h_subgraph G (bfs_expand (snapshot σ G) {[ n ]} size label)).

(** One round of the loop of [Hasher.hash]: the write goes to the
    dictionary [G[u][v]] is. *)
Definition h_canon_edge (key : string) (G : HGraph) (σ : store)
    (uv : node * node) : option store :=
  let '(u, v) := uv in
  l ← h_getitem G u v;
  dd ← σ !! l;
  lbl ← dd !! key;
  if decide (lbl ≠ "B53") then
    match lbl with
    | "" => None
    | String prefix suffix =>
        Some (<[l := <[key := String prefix (join_chars (sorted_chars suffix))]> dd]> σ)
    end
  else Some σ.

(** The [if self.symmetric_edges:] block of [Hasher.hash]. *)
Definition h_canonicalize_edges (self : Hasher) (σ : store) (G : HGraph)
    : option store :=
  if symmetric_edges self
  then for_each (h_canon_edge (label self) G) σ (h_edges G)
  else Some σ.

(** [Hasher.hash(G)]: the store the call leaves and the digest. *)
Definition h_Hasher_hash (digest_of_counts : list (string * nat) → string)
    (self : Hasher) (σ : store) (G : HGraph) : option (store * string) :=
  σ' ← h_canonicalize_edges self σ G;
  h ← wl digest_of_counts (snapshot σ' G) (label self) None (wl_hops self);
  Some (σ', h).

End Heap.

(** ** Worked examples *)

(** The two graphs of the doctest of [Hasher.hash]: undirected paths of
    three residues joined by backbone edges. *)
Definition residue (pos : Z) : node := ("4v6m_76.nx", ("B8", pos)).

Definition backbone : attrs := {[ "LW" := "B53" ]}.

Definition path3 (x y z : Z) : Graph :=
  mkGraph false
    (list_to_map [(residue x, ∅); (residue y, ∅); (residue z, ∅)])
    (list_to_map
       [(residue x, {[ residue y := backbone ]});
        (residue y, list_to_map [(residue x, backbone); (residue z, backbone)]);
        (residue z, {[ residue y := backbone ]})]).

Definition G1_doctest : Graph := path3 626 627 628.
Definition G2_doctest : Graph := path3 654 655 656.

(** Two residues joined by a cis sugar-Hoogsteen pair and a backbone edge
    in a directed graph, each orientation with its own dictionary. *)
Definition G_pair : Graph :=
  mkGraph true
    (list_to_map [(residue 1, ∅); (residue 2, ∅)])
    (list_to_map
       [(residue 1, {[ residue 2 := {[ "LW" := "CSH" ]} ]});
        (residue 2, {[ residue 1 := {[ "LW" := "CHS" ]} ]})]).

(** The same pair in an undirected graph. *)
Definition G_pair_undirected : Graph :=
  mkGraph false
    (list_to_map [(residue 1, ∅); (residue 2, ∅)])
    (list_to_map
       [(residue 1, {[ residue 2 := {[ "LW" := "CSH" ]} ]});
        (residue 2, {[ residue 1 := {[ "LW" := "CSH" ]} ]})]).


(** A corpus of two files, the second of which holds [G_broken]. *)
Definition corpus_listdir (graph_dir : string) : list string :=
  ["g1.json"; "g2.json"].


(** A corpus of the two graphs of the doctest. *)
Definition doctest_load_json (graph_dir g : string) : option Graph :=
  if decide (g = "g1.json") then Some G1_doctest
  else if decide (g = "g2.json") then Some G2_doctest
  else None.

(** [G.to_undirected()] for the examples: every edge under both
    orientations, the dictionaries of the two orientations merged. *)
Definition to_undirected_merge (G : Graph) : Graph :=
  mkGraph false (node_data G)
    (map_imap (λ u nbrs,
       Some (map_imap (λ v dd, Some (dd ∪ default ∅ (G_getitem G v u))) nbrs
             ∪ map_imap (λ v nbrs', nbrs' !! u)
                 (filter (λ e, is_Some (e.2 !! u)) (adj G))))
       (adj G)).

(** A stand-in for the digest in worked examples: the counts, printed. *)
Definition show_counts (l : list (string * nat)) : string :=
  foldr (λ e acc, "(" +:+ e.1 +:+ "," +:+ pretty e.2 +:+ ")" +:+ acc) "" l.

(** Scalars as the expressions that compute them. *)
Inductive sfloat : Type :=
  | SConst (z : Z)
  | SExp (x : sfloat)
  | SMul (x y : sfloat)
  | SSub (x y : sfloat)
  | SNeg (x : sfloat).

(** A hash table in count mode with two buckets, an empty
    [defaultdict(dict)], one oracle that answers 3 and one that times out. *)
Definition two_buckets : gmap string bucket :=
  {[ "a" := BucketCount G1_doctest 1; "b" := BucketCount G2_doctest 1 ]}.

Definition empty_world : world sfloat :=
  mkWorld sfloat (mkGEDTable true ∅) [].

Definition ged_three : Graph → Graph → Z → sfloat + string :=
  λ _ _ _, inl (SConst 3).

Definition ged_timeout : Graph → Graph → Z → sfloat + string :=
  λ _ _ _, inr "timeout".

(** [G_pair] as an object graph: one dictionary for each orientation. *)
Definition store_pair : Heap.store :=
  {[ 1%positive := {[ "LW" := "CSH" ]}; 2%positive := {[ "LW" := "CHS" ]} ]}.

Definition H_pair : Heap.HGraph :=
  Heap.mkHGraph true
    (list_to_map [(residue 1, ∅); (residue 2, ∅)])
    (list_to_map
       [(residue 1, {[ residue 2 := 1%positive ]});
        (residue 2, {[ residue 1 := 2%positive ]})]).

(** ** Auxiliary notions for the canonicalisation loop *)

(** An edge dictionary once its label is canonical; a dictionary whose label
    is missing or empty is as it was. *)
Definition canon_attrs (key : string) (dd : attrs) : attrs :=
  match dd !! key ≫= canonicalize with
  | Some c => <[key := c]> dd
  | None => dd
  end.

Definition canon_graph (key : string) (G : Graph) : Graph :=
  mkGraph (is_directed G) (node_data G)
    ((λ nbrs : gmap node attrs, canon_attrs key <$> nbrs) <$> adj G).

(** The label of an edge dictionary is present and not empty. *)
Definition label_ok (key : string) (dd : attrs) : Prop :=
  is_Some (dd !! key ≫= canonicalize).

Definition labels_ok (key : string) (G : Graph) : Prop :=
  map_Forall (λ _ nbrs, map_Forall (λ _ dd, label_ok key dd) nbrs) (adj G).

#[global] Instance labels_ok_dec key G : Decision (labels_ok key G).
Proof. unfold labels_ok, label_ok. apply _. Defined.

(** The adjacency entry [(u', v')] is the dictionary of the edge [(u, v)]. *)
Definition same_edge (G : Graph) (u v u' v' : node) : Prop :=
  (u = u' ∧ v = v') ∨ (is_directed G = false ∧ v = u' ∧ u = v').

#[global] Instance same_edge_dec G u v u' v' : Decision (same_edge G u v u' v').
Proof. unfold same_edge. apply _. Defined.

(** What holds between two rounds of the loop started on [G0]; [T] holds
    of the adjacency entries rewritten so far. *)
Record canon_inv (key : string) (G0 : Graph) (T : node → node → Prop)
    (G : Graph) : Prop := mk_canon_inv {
  inv_dir : is_directed G = is_directed G0;
  inv_nodes : node_data G = node_data G0;
  inv_dom : dom (adj G) = dom (adj G0);
  inv_sym0 : is_directed G0 = false →
    ∀ u v, G_getitem G0 v u = G_getitem G0 u v;
  inv_sym : is_directed G0 = false →
    ∀ u v, G_getitem G v u = G_getitem G u v;
  inv_either : ∀ u v,
    G_getitem G u v = G_getitem G0 u v ∨
    G_getitem G u v = canon_attrs key <$> G_getitem G0 u v;
  inv_touched : ∀ u v,
    T u v → G_getitem G u v = canon_attrs key <$> G_getitem G0 u v
}.

(** The two orientations of an undirected edge carry the same dictionary. *)
Definition graph_symmetric (G : Graph) : Prop :=
  is_directed G = false → ∀ u v, G_getitem G v u = G_getitem G u v.

(** ** Auxiliary notions for the hash table *)

(** The state an outcome carries. *)
Definition outcome_state {S : Type} (o : outcome S) : S :=
  match o with Done s => s | Raised s => s end.


(** The count of a bucket: its counter, or the length of its list. *)
Definition bucket_size (b : option bucket) : nat :=
  match b with
  | None => 0
  | Some (BucketGraphs graphs) => length graphs
  | Some (BucketCount _ count) => count
  end.

(** The graphlets processed so far, each as [Hasher.hash] left it and with
    its digest; those of them with digest [h]; their number. *)
Definition with_digest (h : string) (processed : list (Graph * string))
    : list (Graph * string) :=
  filter (λ x, x.2 = h) processed.

Definition digest_count (h : string) (processed : list (Graph * string))
    : nat :=
  length (with_digest h processed).

(** The bucket the processed graphlets with digest [h] make. *)
Definition expected_bucket (mode : string) (processed : list (Graph * string))
    (h : string) : option bucket :=
  match with_digest h processed with
  | [] => None
  | x :: l =>
      Some (if decide (mode = "append")
            then BucketGraphs (x.1 :: l.*1)
            else BucketCount x.1 (length (x :: l)))
  end.

Definition table_of (mode : string) (processed : list (Graph * string))
    (hash_table : gmap string bucket) : Prop :=
  ∀ h, hash_table !! h = expected_bucket mode processed h.

(** A bucket as it was, or grown: the same representative and a counter
    not smaller, or the same list with graphs appended. *)
Definition bucket_le (b b' : option bucket) : Prop :=
  match b, b' with
  | None, _ => True
  | Some (BucketGraphs gs), Some (BucketGraphs gs') => gs `prefix_of` gs'
  | Some (BucketCount g c), Some (BucketCount g' c') => g = g' ∧ c ≤ c'
  | _, _ => False
  end.

(** Tables ordered bucket by bucket. *)
Definition table_le (t t' : gmap string bucket) : Prop :=
  ∀ h, bucket_le (t !! h) (t' !! h).

Section build_trace.
Variable digest_of_counts : list (string * nat) → string.
Variable load_json : string → string → option Graph.
Variable to_undirected : Graph → Graph.

(** The graphlets of [todo] that get hashed, in order, each as hashing left
    it and with its digest, and whether all of them do. *)
Fixpoint hash_trace (hasher : Hasher) (todo : list Graph)
    : list (Graph * string) * bool :=
  match todo with
  | [] => ([], true)
  | n :: todo =>
      match Hasher_hash digest_of_counts hasher n with
      | None => ([], false)
      | Some x => let '(tr, ok) := hash_trace hasher todo in (x :: tr, ok)
      end
  end.

(** The same for the graphs of a corpus. *)
Fixpoint corpus_trace (graph_dir : string) (hasher : Hasher)
    (graphlets : bool) (graphlet_size : nat) (label : string)
    (directed : bool) (graphlist : list string)
    : list (Graph * string) * bool :=
  match graphlist with
  | [] => ([], true)
  | g :: graphlist =>
      match load_json graph_dir g with
      | None => ([], false)
      | Some G =>
          let G := if directed then G else to_undirected G in
          let '(tr, ok) :=
            hash_trace hasher (todo_of graphlets graphlet_size label G) in
          if ok then
            let '(tr', ok') :=
              corpus_trace graph_dir hasher graphlets graphlet_size label
                directed graphlist in
            (tr ++ tr', ok')
          else (tr, false)
      end
  end.
End build_trace.

(** ** Isomorphic graphs *)

(** [f], with inverse [g], maps the nodes of [G1] onto those of [G2] and
    preserves the label attribute [key] of nodes and of edges. *)
Record graph_iso (key : string) (f g : node → node) (G1 G2 : Graph)
    : Prop := mk_graph_iso {
  iso_cancel_l : ∀ u, g (f u) = u;
  iso_cancel_r : ∀ u, f (g u) = u;
  iso_nodes : ∀ u,
    is_Some (node_data G2 !! f u) ↔ is_Some (node_data G1 !! u);
  iso_node_label : ∀ u,
    node_data G2 !! f u ≫= (.!! key) = node_data G1 !! u ≫= (.!! key);
  iso_edge : ∀ u v,
    (.!! key) <$> G_getitem G2 (f u) (f v) = (.!! key) <$> G_getitem G1 u v
}.

(** The labels of corresponding nodes are equal. *)
Definition labels_rel (f : node → node) (L1 L2 : gmap node string) : Prop :=
  ∀ u, L2 !! f u = L1 !! u.

(** The graph with every node [u] renamed [f u] (networkx's
    [relabel_nodes] for an injective renaming). *)
Definition relabel (f : node → node) (G : Graph) : Graph :=
  mkGraph (is_directed G)
    (kmap (M2 := gmap node) f (node_data G))
    (kmap (M2 := gmap node) f
       ((λ nbrs : gmap node attrs, kmap (M2 := gmap node) f nbrs) <$> adj G)).

(** The residue [k] positions further along the chain. *)
Definition shift_residue (k : Z) (u : node) : node :=
  (u.1, (u.2.1, (u.2.2 + k)%Z)).

(** A graph of one node, without edges, whose node carries the label [l]. *)
Definition labelled_node (l : string) : Graph :=
  mkGraph true {[ residue 1 := {[ "LW" := l ]} ]} {[ residue 1 := ∅ ]}.

(** A graph of one node with an edge from the node to itself. *)
Definition looped_node : Graph :=
  mkGraph true {[ residue 1 := ∅ ]}
    {[ residue 1 := {[ residue 1 := {[ "LW" := "CWW" ]} ]} ]}.

(** ** The tables of the module *)

(** [edge_map] *)
Definition edge_map : gmap string nat :=
  list_to_map
    [("B53", 0); ("CHH", 1); ("CHS", 2); ("CHW", 3); ("CSH", 2); ("CSS", 4);
     ("CSW", 5); ("CWH", 3); ("CWS", 5); ("CWW", 6); ("THH", 7); ("THS", 8);
     ("THW", 9); ("TSH", 8); ("TSS", 10); ("TSW", 11); ("TWH", 9);
     ("TWS", 11); ("TWW", 12)].

(** [indel_vector] *)
Definition indel_vector : list nat :=
  (λ e, if decide (e = "B53") then 1 else if decide (e = "CWW") then 2 else 3)
    <$> sorted_strs (map_to_list edge_map).*1.

Definition faces : list string := ["W"; "S"; "H"].
Definition orientations : list string := ["C"; "T"].

(** [itertools.product(a, b)] *)
Definition product {X Y : Type} (a : list X) (b : list Y) : list (X * Y) :=
  x ← a; y ← b; [(x, y)].

(** [labels] *)
Definition labels : gset string :=
  list_to_set
    (e ← product faces faces;
     orient ← orientations;
     [orient +:+ e.1 +:+ e.2])
  ∪ {[ "B53" ]}.

(** * Properties *)

(** ** Sorting *)

Section sorted_facts.
Context {A : Type} (R : relation A).
Context `{!RelDecision R, !Transitive R, !Total R, !AntiSymm (=) R}.

Lemma sorted_perm (l1 l2 : list A) :
      l1 ≡ₚ l2 → sorted R l1 = sorted R l2.
Proof.
      intros Hp. unfold sorted.
      apply (StronglySorted_unique R).
      - apply StronglySorted_merge_sort; apply _.
      - apply StronglySorted_merge_sort; apply _.
      - by rewrite !merge_sort_Permutation.
Qed.

Lemma sorted_fixed (l : list A) :
      StronglySorted R l → sorted R l = l.
Proof.
      intros Hs. unfold sorted.
      apply (StronglySorted_unique R); [|done|].
      - apply StronglySorted_merge_sort; apply _.
      - apply merge_sort_Permutation.
Qed.

Lemma sorted_idem (l : list A) : sorted R (sorted R l) = sorted R l.
Proof.
      apply sorted_fixed. apply StronglySorted_merge_sort; apply _.
Qed.

End sorted_facts.

(** ** Label canonicalisation *)

Lemma sorted_chars_join (l : list ascii) :
  sorted_chars (join_chars (sorted ascii_le l)) = sorted ascii_le l.
Proof.
  unfold sorted_chars, join_chars.
  rewrite list_ascii_of_string_of_list_ascii.
  apply (sorted_idem ascii_le).
Qed.

(** A label the canonicaliser returns is left as it is by the canonicaliser. *)
Lemma canonicalize_fixed (l c : string) :
  canonicalize l = Some c → canonicalize c = Some c.
Proof.
  unfold canonicalize. intros H.
  destruct (decide (l ≠ "B53")) as [Hl|Hl].
  - destruct l as [|p s]; [done|]. injection H as <-.
    destruct (decide (_ ≠ "B53")); [|done].
    do 2 f_equal. apply (f_equal join_chars).
    apply (sorted_chars_join (list_ascii_of_string s)).
  - injection H as <-. by destruct (decide (l ≠ "B53")).
Qed.

Lemma canonicalize_idempotent (l : string) :
  canonicalize l ≫= canonicalize = canonicalize l.
Proof.
  destruct (canonicalize l) as [c|] eqn:H; [|done].
  simpl. by apply canonicalize_fixed in H.
Qed.

(** ** Reading a graph after a write *)

Lemma set_adj_attr_lookup a u v key val u' v' :
  default ∅ (set_adj_attr u v key val a !! u') !! v' =
  if decide (u = u' ∧ v = v')
  then insert key val <$> (default ∅ (a !! u') !! v')
  else default ∅ (a !! u') !! v'.
Proof.
  unfold set_adj_attr. rewrite lookup_alter.
  destruct (decide (u = u' ∧ v = v')) as [[-> ->]|Hn].
  - rewrite decide_True by done.
    destruct (a !! u'); simpl; [by rewrite lookup_alter_eq|].
    by rewrite lookup_empty.
  - destruct (decide (u = u')) as [->|]; [|done].
    destruct (a !! u'); simpl; [|done].
    rewrite lookup_alter_ne; [done|]. intros ->. by apply Hn.
Qed.

Lemma G_getitem_set_edge_attr G u v key val u' v' :
  G_getitem (set_edge_attr G u v key val) u' v' =
  if decide (same_edge G u v u' v')
  then insert key val <$> G_getitem G u' v'
  else G_getitem G u' v'.
Proof.
  unfold G_getitem, G_adj, set_edge_attr; simpl.
  destruct (decide (same_edge G u v u' v')) as [Hs|Hs];
    unfold same_edge in Hs;
    destruct (is_directed G) eqn:Hd; rewrite !set_adj_attr_lookup.
  - destruct Hs as [Hs|[? _]]; [|done]. by rewrite decide_True.
  - destruct (decide (v = u' ∧ u = v')), (decide (u = u' ∧ v = v')).
    + destruct (default ∅ (adj G !! u') !! v'); simpl; [|done].
      by rewrite insert_insert_eq.
    + done.
    + done.
    + exfalso. destruct Hs as [?|[_ ?]]; done.
  - rewrite decide_False; [done|]. intros ?. apply Hs. by left.
  - rewrite decide_False; [|intros ?; apply Hs; by right].
    rewrite decide_False; [done|]. intros ?. apply Hs. by left.
Qed.

Lemma set_edge_attr_dom G u v key val :
  dom (adj (set_edge_attr G u v key val)) = dom (adj G).
Proof.
  unfold set_edge_attr, set_adj_attr; simpl.
  destruct (is_directed G); by rewrite ?dom_alter_L.
Qed.

(** ** One round of the canonicalisation loop *)

Lemma canon_edge_Some key G u v G' :
  canon_edge key G (u, v) = Some G' ↔
  ∃ dd lbl c, G_getitem G u v = Some dd ∧ dd !! key = Some lbl ∧
    canonicalize lbl = Some c ∧
    G' = if decide (lbl ≠ "B53") then set_edge_attr G u v key c else G.
Proof.
  unfold canon_edge, canonicalize. split.
  - intros H. destruct (G_getitem G u v) as [dd|]; [|done]. simpl in H.
    destruct (dd !! key) as [lbl|] eqn:Hk; [|done]. simpl in H.
    exists dd, lbl. destruct (decide (lbl ≠ "B53")).
    + destruct lbl as [|p s]; [done|]. eexists. by simplify_eq.
    + exists lbl. by simplify_eq.
  - intros (dd & lbl & c & Hg & Hk & Hc & HG). subst G'.
    rewrite Hg. simpl. rewrite Hk. simpl.
    destruct (decide (lbl ≠ "B53")).
    + destruct lbl as [|p s]; [done|]. by simplify_eq.
    + done.
Qed.

Lemma canon_attrs_write key dd0 dd lbl c :
  dd = dd0 ∨ dd = canon_attrs key dd0 →
  dd !! key = Some lbl → canonicalize lbl = Some c →
  <[key := c]> dd = canon_attrs key dd0 ∧ label_ok key dd0.
Proof.
  unfold canon_attrs, label_ok. intros Hdd Hk Hc.
  destruct (dd0 !! key ≫= canonicalize) as [c0|] eqn:H0.
  - destruct (dd0 !! key) as [l0|] eqn:Hk0; [|done]. simpl in H0.
    split; [|done]. destruct Hdd as [-> | ->].
    + by simplify_eq.
    + rewrite lookup_insert_eq in Hk. simplify_eq.
      apply canonicalize_fixed in H0. simplify_eq.
      by rewrite insert_insert_eq.
  - assert (dd = dd0) as -> by (by destruct Hdd).
    rewrite Hk in H0. simpl in H0. congruence.
Qed.

Lemma canon_attrs_idem key dd :
  canon_attrs key (canon_attrs key dd) = canon_attrs key dd.
Proof.
  unfold canon_attrs.
  destruct (dd !! key ≫= canonicalize) as [c|] eqn:H; [|by rewrite H].
  destruct (dd !! key) as [l|]; [|done]. simpl in H.
  rewrite lookup_insert_eq. simpl.
  rewrite (canonicalize_fixed _ _ H). by rewrite insert_insert_eq.
Qed.

Lemma same_edge_directed G G' u v u' v' :
  is_directed G = is_directed G' →
  same_edge G u v u' v' ↔ same_edge G' u v u' v'.
Proof. unfold same_edge. by intros ->. Qed.

Lemma same_edge_swap G u v u' v' :
  is_directed G = false → same_edge G u v u' v' → same_edge G u v v' u'.
Proof. unfold same_edge. intros Hd [[-> ->]|(_ & -> & ->)]; auto. Qed.

Lemma canon_edge_getitem key G0 T G u v G' :
  canon_inv key G0 T G → canon_edge key G (u, v) = Some G' →
  ∃ dd0, G_getitem G0 u v = Some dd0 ∧ label_ok key dd0 ∧
    is_directed G' = is_directed G ∧ node_data G' = node_data G ∧
    dom (adj G') = dom (adj G) ∧
    ∀ u' v', G_getitem G' u' v' =
      if decide (same_edge G0 u v u' v')
      then Some (canon_attrs key dd0) else G_getitem G u' v'.
Proof.
  intros Inv (dd & lbl & c & Hg & Hk & Hc & ->)%canon_edge_Some.
  destruct (G_getitem G0 u v) as [dd0|] eqn:Hg0; last first.
  { destruct (inv_either _ _ _ _ Inv u v) as [H|H];
      rewrite Hg, Hg0 in H; done. }
  assert (dd = dd0 ∨ dd = canon_attrs key dd0) as Hdd.
  { destruct (inv_either _ _ _ _ Inv u v) as [H|H];
      rewrite Hg, Hg0 in H; simplify_eq/=; auto. }
  destruct (canon_attrs_write _ _ _ _ _ Hdd Hk Hc) as [Hw Hok].
  assert (∀ u' v', same_edge G0 u v u' v' → G_getitem G u' v' = Some dd)
    as Hsame.
  { intros u' v' [[<- <-]|(Hd & <- & <-)]; [done|].
    by rewrite (inv_sym _ _ _ _ Inv Hd). }
  exists dd0. split; [done|]. split; [done|].
  destruct (decide (lbl ≠ "B53")) as [Hl|Hl].
  - split; [done|]. split; [done|]. split; [apply set_edge_attr_dom|].
    intros u' v'. rewrite G_getitem_set_edge_attr.
    destruct (decide (same_edge G0 u v u' v')) as [Hs|Hs].
    + rewrite decide_True
        by (by apply (same_edge_directed G G0), Hs; apply Inv).
      rewrite (Hsame _ _ Hs). simpl. by rewrite Hw.
    + rewrite decide_False; [done|].
      intros Hs'. apply Hs.
      by apply (same_edge_directed G G0), Hs'; apply Inv.
  - split; [done|]. split; [done|]. split; [done|].
    intros u' v'. destruct (decide (same_edge G0 u v u' v')) as [Hs|Hs]; [|done].
    rewrite (Hsame _ _ Hs). f_equal. rewrite <- Hw.
    apply dec_stable in Hl. subst lbl.
    unfold canonicalize in Hc. rewrite decide_False in Hc by auto.
    simplify_eq. by rewrite insert_id.
Qed.

Lemma canon_inv_weaken key G0 (T T' : node → node → Prop) G :
  (∀ u v, T' u v → T u v) → canon_inv key G0 T G → canon_inv key G0 T' G.
Proof. intros HT [? ? ? ? ? ? ?]. split; auto. Qed.

Lemma canon_inv_start key G0 :
  (is_directed G0 = false → ∀ u v, G_getitem G0 v u = G_getitem G0 u v) →
  canon_inv key G0 (λ _ _, False) G0.
Proof. intros Hsym. split; auto. done. Qed.

Lemma canon_edge_inv key G0 T G u v G' :
  canon_inv key G0 T G → canon_edge key G (u, v) = Some G' →
  canon_inv key G0 (λ u' v', T u' v' ∨ same_edge G0 u v u' v') G'.
Proof.
  intros Inv Hstep.
  destruct (canon_edge_getitem _ _ _ _ _ _ _ Inv Hstep)
    as (dd0 & Hg0 & _ & Hd & Hn & Hdom & Hget).
  assert (∀ u' v', same_edge G0 u v u' v' → G_getitem G0 u' v' = Some dd0)
    as Hsame0.
  { intros u' v' [[<- <-]|(Hdir & <- & <-)]; [done|].
    by rewrite (inv_sym0 _ _ _ _ Inv Hdir). }
  split.
  - rewrite Hd. apply Inv.
  - rewrite Hn. apply Inv.
  - rewrite Hdom. apply Inv.
  - apply Inv.
  - intros Hdir u' v'. rewrite !Hget.
    destruct (decide (same_edge G0 u v v' u')) as [Hs|Hs].
    + by rewrite decide_True by (by apply same_edge_swap).
    + rewrite decide_False; [by apply (inv_sym _ _ _ _ Inv)|].
      intros Hs'. by apply Hs, same_edge_swap.
  - intros u' v'. rewrite Hget.
    destruct (decide (same_edge G0 u v u' v')) as [Hs|Hs].
    + right. by rewrite (Hsame0 _ _ Hs).
    + apply Inv.
  - intros u' v' HT. rewrite Hget.
    destruct (decide (same_edge G0 u v u' v')) as [Hs|Hs].
    + by rewrite (Hsame0 _ _ Hs).
    + destruct HT as [HT|HT]; [|done]. by apply (inv_touched _ _ _ _ Inv).
Qed.

Lemma for_each_canon_inv key G0 es : ∀ T G G',
  canon_inv key G0 T G →
  for_each (canon_edge key) G es = Some G' →
  canon_inv key G0
    (λ u v, T u v ∨ ∃ e, e ∈ es ∧ same_edge G0 e.1 e.2 u v) G' ∧
  Forall (λ e, ∃ dd0, G_getitem G0 e.1 e.2 = Some dd0 ∧ label_ok key dd0) es.
Proof.
  induction es as [|[u v] es IH]; intros T G G' Inv Hrun;
    cbn [for_each] in Hrun.
  - simplify_eq. split; [|done].
    eapply canon_inv_weaken; [|done]. intros u v [?|(e & He & _)]; [done|].
    by apply elem_of_nil in He.
  - destruct (canon_edge key G (u, v)) as [G1|] eqn:Hstep;
      simpl in Hrun; [|done].
    pose proof (canon_edge_inv _ _ _ _ _ _ _ Inv Hstep) as Inv1.
    destruct (IH _ _ _ Inv1 Hrun) as [Inv' Hall]. split.
    + eapply canon_inv_weaken; [|done]. intros u' v'. simpl.
      intros [HT|(e & He & Hs)]; [by left; left|].
      apply elem_of_cons in He as [->|He]; [by left; right|].
      right. by exists e.
    + constructor; [|done].
      destruct (canon_edge_getitem _ _ _ _ _ _ _ Inv Hstep)
        as (dd0 & Hg0 & Hok & _). by exists dd0.
Qed.

Lemma canon_edge_is_Some key G0 T G u v dd0 :
  canon_inv key G0 T G →
  G_getitem G0 u v = Some dd0 → label_ok key dd0 →
  is_Some (canon_edge key G (u, v)).
Proof.
  intros Inv Hg0 [c0 Hok].
  destruct (dd0 !! key) as [l0|] eqn:Hk0; [|done]. simpl in Hok.
  destruct (inv_either _ _ _ _ Inv u v) as [H|H]; rewrite Hg0 in H.
  - eexists. apply canon_edge_Some. by exists dd0, l0, c0.
  - eexists. apply canon_edge_Some. exists (canon_attrs key dd0), c0, c0.
    split; [done|]. unfold canon_attrs. rewrite Hk0. simpl. rewrite Hok.
    rewrite lookup_insert_eq. split; [done|].
    split; [by eapply canonicalize_fixed|done].
Qed.

Lemma for_each_canon_is_Some key G0 es : ∀ T G,
  canon_inv key G0 T G →
  Forall (λ e, ∃ dd0, G_getitem G0 e.1 e.2 = Some dd0 ∧ label_ok key dd0) es →
  is_Some (for_each (canon_edge key) G es).
Proof.
  induction es as [|[u v] es IH]; intros T G Inv Hall; cbn [for_each];
    [done|].
  apply Forall_cons in Hall as [(dd0 & Hg0 & Hok) Hall]. simpl in Hg0.
  destruct (canon_edge_is_Some _ _ _ _ _ _ _ Inv Hg0 Hok) as [G1 Hstep].
  rewrite Hstep. simpl.
  eapply IH; [|done]. by eapply canon_edge_inv.
Qed.

(** ** The edges a graph reports *)

Lemma G_getitem_Some G u v dd :
  G_getitem G u v = Some dd ↔
  ∃ nbrs, adj G !! u = Some nbrs ∧ nbrs !! v = Some dd.
Proof.
  unfold G_getitem, G_adj. destruct (adj G !! u) as [nbrs|]; simpl.
  - naive_solver.
  - rewrite lookup_empty. naive_solver.
Qed.

Lemma elem_of_keys {V} (m : gmap node V) (k : node) :
  k ∈ (map_to_list m).*1 ↔ is_Some (m !! k).
Proof.
  rewrite list_elem_of_fmap. split.
  - intros ([k' x] & -> & H%elem_of_map_to_list). by exists x.
  - intros [x H]. exists (k, x). by rewrite elem_of_map_to_list.
Qed.

Lemma edges_seen_sound l : ∀ seen u v,
  (u, v) ∈ edges_seen seen l →
  ∃ nbrs, (u, nbrs) ∈ l ∧ is_Some (nbrs !! v).
Proof.
  induction l as [|[n nbrs] l IH]; intros seen u v; simpl.
  - by intros ?%elem_of_nil.
  - rewrite elem_of_app, list_elem_of_fmap. intros [(w & Heq & Hw)|H].
    + simplify_eq. apply list_elem_of_filter in Hw as [_ Hw].
      exists nbrs. split; [left|]. by apply elem_of_keys.
    + destruct (IH _ _ _ H) as (nbrs' & ? & ?). exists nbrs'.
      split; [by right|done].
Qed.

Lemma edges_seen_cover l : ∀ seen u v nu nv,
  NoDup l.*1 → (u, nu) ∈ l → (v, nv) ∈ l →
  is_Some (nu !! v) → is_Some (nv !! u) → u ∉ seen → v ∉ seen →
  (u, v) ∈ edges_seen seen l ∨ (v, u) ∈ edges_seen seen l.
Proof.
  induction l as [|[n nbrs] l IH]; intros seen u v nu nv Hnd Hu Hv Huv Hvu ? ?.
  - by apply elem_of_nil in Hu.
  - simpl. rewrite !elem_of_app, !list_elem_of_fmap.
    apply NoDup_cons in Hnd as [Hn Hnd]. simpl in Hn.
    apply elem_of_cons in Hu as [Hu|Hu].
    { simplify_eq. left. left. exists v. split; [done|].
      apply list_elem_of_filter. split; [done|]. by apply elem_of_keys. }
    apply elem_of_cons in Hv as [Hv|Hv].
    { simplify_eq. right. left. exists u. split; [done|].
      apply list_elem_of_filter. split; [done|]. by apply elem_of_keys. }
    assert (u ≠ n).
    { intros ->. apply Hn, list_elem_of_fmap. by exists (n, nu). }
    assert (v ≠ n).
    { intros ->. apply Hn, list_elem_of_fmap. by exists (n, nv). }
    destruct (IH ({[n]} ∪ seen) u v nu nv) as [H'|H']; try done.
    + set_solver.
    + set_solver.
    + left. by right.
    + right. by right.
Qed.

Lemma G_edges_sound G e :
  e ∈ G_edges G → is_Some (G_getitem G e.1 e.2).
Proof.
  destruct e as [u v]. unfold G_edges. simpl.
  intros H. cut (∃ nbrs, adj G !! u = Some nbrs ∧ is_Some (nbrs !! v)).
  { intros (nbrs & ? & [dd ?]). exists dd. apply G_getitem_Some. eauto. }
  destruct (is_directed G).
  - apply list_elem_of_bind in H as ([n nbrs] & H & Hn).
    apply list_elem_of_fmap in H as (w & ? & Hw). simplify_eq.
    exists nbrs. split; [by apply elem_of_map_to_list|by apply elem_of_keys].
  - apply edges_seen_sound in H as (nbrs & ? & ?).
    exists nbrs. split; [by apply elem_of_map_to_list|done].
Qed.

Lemma G_edges_cover G u v :
  (is_directed G = false → ∀ u v, G_getitem G v u = G_getitem G u v) →
  is_Some (G_getitem G u v) →
  ∃ e, e ∈ G_edges G ∧ same_edge G e.1 e.2 u v.
Proof.
  intros Hsym [dd Huv]. unfold G_edges, same_edge.
  destruct (is_directed G) eqn:Hd.
  - exists (u, v). split; [|by left].
    apply G_getitem_Some in Huv as (nbrs & Hu & Hv).
    apply list_elem_of_bind. exists (u, nbrs).
    split; [|by apply elem_of_map_to_list].
    apply list_elem_of_fmap. exists v. split; [done|]. by apply elem_of_keys.
  - pose proof Huv as Hvu. rewrite <- (Hsym eq_refl) in Hvu.
    apply G_getitem_Some in Huv as (nu & Hu & Huv).
    apply G_getitem_Some in Hvu as (nv & Hv & Hvu).
    destruct (edges_seen_cover (map_to_list (adj G)) ∅ u v nu nv)
      as [H|H]; try done.
    + apply NoDup_fst_map_to_list.
    + by apply elem_of_map_to_list.
    + by apply elem_of_map_to_list.
    + exists (u, v). split; [done|]. by left.
    + exists (v, u). split; [done|]. by right.
Qed.

(** ** The whole loop *)

Lemma Graph_eq (G G' : Graph) :
  is_directed G = is_directed G' → node_data G = node_data G' →
  dom (adj G) = dom (adj G') →
  (∀ u v, G_getitem G u v = G_getitem G' u v) → G = G'.
Proof.
  destruct G as [d nd a], G' as [d' nd' a']; simpl.
  intros -> -> Hdom Hget. f_equal. apply map_eq. intros u.
  destruct (a !! u) as [nbrs|] eqn:Hu, (a' !! u) as [nbrs'|] eqn:Hu'.
  - f_equal. apply map_eq. intros v. specialize (Hget u v).
    unfold G_getitem, G_adj in Hget. simpl in Hget.
    by rewrite Hu, Hu' in Hget.
  - apply elem_of_dom_2 in Hu. rewrite Hdom in Hu.
    apply elem_of_dom in Hu as [? Hu]. congruence.
  - apply elem_of_dom_2 in Hu'. rewrite <- Hdom in Hu'.
    apply elem_of_dom in Hu' as [? Hu']. congruence.
  - done.
Qed.

Lemma G_getitem_canon_graph key G u v :
  G_getitem (canon_graph key G) u v = canon_attrs key <$> G_getitem G u v.
Proof.
  unfold G_getitem, G_adj, canon_graph; simpl. rewrite lookup_fmap.
  destruct (adj G !! u) as [nbrs|]; simpl.
  - by rewrite lookup_fmap.
  - by rewrite lookup_empty.
Qed.

Lemma labels_ok_getitem key G :
  labels_ok key G ↔ ∀ u v dd, G_getitem G u v = Some dd → label_ok key dd.
Proof.
  unfold labels_ok. split.
  - intros H u v dd (nbrs & Hu & Hv)%G_getitem_Some.
    by apply (H u nbrs Hu v dd).
  - intros H u nbrs Hu v dd Hv. apply (H u v). apply G_getitem_Some. eauto.
Qed.

Lemma wf_graph_symmetric G : wf_graph G → graph_symmetric G.
Proof.
  intros [_ Hwf] Hd.
  assert (∀ u v dd, G_getitem G u v = Some dd → G_getitem G v u = Some dd)
    as Hone.
  { intros u v dd (nbrs & Hu & Hv)%G_getitem_Some.
    by apply (Hwf u nbrs Hu v dd Hv). }
  intros u v. destruct (G_getitem G u v) as [dd|] eqn:Huv.
  - by apply Hone.
  - destruct (G_getitem G v u) as [dd|] eqn:Hvu; [|done].
    apply Hone in Hvu. congruence.
Qed.

Lemma canon_loop_spec key G :
  graph_symmetric G →
  for_each (canon_edge key) G (G_edges G) =
  if decide (labels_ok key G) then Some (canon_graph key G) else None.
Proof.
  intros Hsym. pose proof (canon_inv_start key G Hsym) as Inv0.
  destruct (for_each (canon_edge key) G (G_edges G)) as [G'|] eqn:Hrun.
  - destruct (for_each_canon_inv _ _ _ _ _ _ Inv0 Hrun) as [Inv Hall].
    rewrite Forall_forall in Hall.
    assert (∀ u v dd, G_getitem G u v = Some dd →
              label_ok key dd ∧ G_getitem G' u v = Some (canon_attrs key dd))
      as Hfin.
    { intros u v dd Huv.
      destruct (G_edges_cover G u v Hsym) as (e & He & Hs); [by eexists|].
      destruct (Hall e He) as (dd0 & Hg0 & Hok).
      assert (G_getitem G e.1 e.2 = G_getitem G u v) as Heq.
      { destruct Hs as [[-> ->]|(Hd & -> & ->)]; [done|]. by apply Hsym. }
      rewrite Heq, Huv in Hg0. simplify_eq. split; [done|].
      rewrite (inv_touched _ _ _ _ Inv u v); [by rewrite Huv|].
      right. by exists e. }
    rewrite decide_True.
    + f_equal. apply Graph_eq; simpl.
      * apply (inv_dir _ _ _ _ Inv).
      * apply (inv_nodes _ _ _ _ Inv).
      * rewrite dom_fmap_L. apply (inv_dom _ _ _ _ Inv).
      * intros u v. rewrite G_getitem_canon_graph.
        destruct (G_getitem G u v) as [dd|] eqn:Huv.
        -- by apply (Hfin u v dd).
        -- destruct (inv_either _ _ _ _ Inv u v) as [H|H];
             by rewrite H, Huv.
    + apply labels_ok_getitem. intros u v dd Huv. by apply (Hfin u v dd).
  - rewrite decide_False; [done|]. intros Hok.
    rewrite labels_ok_getitem in Hok.
    destruct (for_each_canon_is_Some key G (G_edges G) _ G Inv0) as [? H].
    + apply Forall_forall. intros e [dd He]%G_edges_sound.
      exists dd. split; [done|]. by eapply Hok.
    + congruence.
Qed.

Lemma label_ok_canon_attrs key dd :
  label_ok key dd → label_ok key (canon_attrs key dd).
Proof.
  unfold label_ok, canon_attrs. intros [c Hc]. rewrite Hc.
  destruct (dd !! key) as [l|]; [|done]. simpl in Hc.
  rewrite lookup_insert_eq. simpl. exists c. by eapply canonicalize_fixed.
Qed.

Lemma canon_graph_symmetric key G :
  graph_symmetric G → graph_symmetric (canon_graph key G).
Proof.
  intros Hsym Hd u v. rewrite !G_getitem_canon_graph. f_equal. by apply Hsym.
Qed.

Lemma canon_graph_labels_ok key G :
  labels_ok key G → labels_ok key (canon_graph key G).
Proof.
  rewrite !labels_ok_getitem. intros Hok u v dd.
  rewrite G_getitem_canon_graph.
  destruct (G_getitem G u v) as [dd0|] eqn:Huv; [|done].
  intros [= <-]. apply label_ok_canon_attrs. by eapply Hok.
Qed.

Lemma canon_graph_idem key G :
  canon_graph key (canon_graph key G) = canon_graph key G.
Proof.
  apply Graph_eq; simpl; try done.
  - by rewrite !dom_fmap_L.
  - intros u v. rewrite !G_getitem_canon_graph.
    destruct (G_getitem G u v); simpl; [|done].
    by rewrite canon_attrs_idem.
Qed.

Lemma canonicalize_edges_spec self G :
  graph_symmetric G →
  canonicalize_edges self G =
  if symmetric_edges self
  then (if decide (labels_ok (label self) G)
        then Some (canon_graph (label self) G) else None)
  else Some G.
Proof.
  intros Hsym. unfold canonicalize_edges.
  destruct (symmetric_edges self); [|done]. by apply canon_loop_spec.
Qed.

(** C6. Canonicalisation is idempotent: the canonicaliser applied to a label
    it returned returns it again (and it raises on the same labels), and a
    second run of the symmetric-edges loop of [Hasher.hash] on the graph the
    first run left gives that graph back, every edge label as the first run
    made it; the backbone label is a fixed point. *)
Theorem canonicalization_idempotent (l : string) (self : Hasher) (G : Graph) :
  graph_symmetric G →
  canonicalize l ≫= canonicalize = canonicalize l ∧
  canonicalize "B53" = Some "B53" ∧
  canonicalize_edges self G ≫= canonicalize_edges self
    = canonicalize_edges self G.
Proof.
  intros Hsym. split; [apply canonicalize_idempotent|]. split; [done|].
  rewrite (canonicalize_edges_spec self G Hsym).
  destruct (symmetric_edges self) eqn:Hse; simpl.
  - destruct (decide (labels_ok (label self) G)) as [Hok|Hok]; [|done].
    simpl.
    rewrite (canonicalize_edges_spec self _
               (canon_graph_symmetric _ _ Hsym)), Hse.
    rewrite decide_True by (by apply canon_graph_labels_ok).
    by rewrite canon_graph_idem.
  - unfold canonicalize_edges. by rewrite Hse.
Qed.

(** ** The table of pairwise distances *)

Section GED_facts.
Context {float : Type}.
Variable np_exp : float → float.
Variable fmul fsub : float → float → float.
Variable fneg : float → float.
Variable f_one : float.
Context {oracle_error : Type}.
Variable ged : Graph → Graph → Z → float + oracle_error.

#[local] Abbreviation call := (GED_hashtable_hashed float np_exp fmul fsub fneg f_one
                    oracle_error ged).
#[local] Abbreviation value := (fresh_value float np_exp fmul fsub fneg f_one).

(** Reading [GED_table[a][b]] gives the cached scalar and changes no cached
    scalar; it changes nothing at all in a plain dictionary. *)
Lemma ged_lookup_spec (T : GEDTable float) a b :
  (ged_lookup float T a b).1 = cached float T a b ∧
  default_factory (ged_lookup float T a b).2 = default_factory T ∧
  (∀ p q, cached float (ged_lookup float T a b).2 p q = cached float T p q) ∧
  (default_factory T = false → (ged_lookup float T a b).2 = T).
Proof.
  unfold ged_lookup, ged_getitem, cached.
  destruct (entries T !! a) as [d|] eqn:Ha; simpl; [done|].
  destruct (default_factory T) eqn:Hf; simpl; [|done].
  repeat split; [|done]. intros p q.
  destruct (decide (a = p)) as [->|Hp].
  - by rewrite lookup_insert_eq, Ha.
  - by rewrite lookup_insert_ne.
Qed.

Lemma ged_store_spec (T T' : GEDTable float) a b x :
  ged_store float T a b x = Some T' →
  default_factory T' = default_factory T ∧
  ∀ p q, cached float T' p q =
         if decide (p = a ∧ q = b) then Some x else cached float T p q.
Proof.
  unfold ged_store, ged_getitem, cached.
  assert (∀ (E : gmap string (gmap string float)) d p q,
    E !! a = Some d ∨ (E !! a = None ∧ d = ∅) →
    <[a := <[b := x]> d]> E !! p ≫= (.!! q) =
    if decide (p = a ∧ q = b) then Some x else E !! p ≫= (.!! q)) as Haux.
  { intros E d p q HE. destruct (decide (p = a)) as [->|Hp].
    - rewrite lookup_insert_eq. simpl. destruct (decide (q = b)) as [->|Hq].
      + rewrite lookup_insert_eq. by rewrite decide_True.
      + rewrite lookup_insert_ne by done.
        rewrite decide_False by (by intros [_ ?]).
        destruct HE as [->|[-> ->]]; done.
    - rewrite lookup_insert_ne by done.
      by rewrite decide_False by (by intros [? _]). }
  destruct (entries T !! a) as [d|] eqn:Ha; simpl.
  - intros [= <-]. simpl. split; [done|]. intros p q. apply Haux. by left.
  - destruct (default_factory T) eqn:Hf; simpl; [|done].
    intros [= <-]. simpl. split; [done|]. intros p q.
    rewrite insert_insert_eq. apply Haux. by right.
Qed.

(** A call that finds the pair cached, in the orientation asked or in the
    other one, returns the cached scalar and leaves the oracle alone. *)
Lemma GED_hit x y w gt normed max_edges beta timeout similarity v :
  cached float (GED_table float w) x y = Some v ∨
  (cached float (GED_table float w) x y = None ∧
   cached float (GED_table float w) y x = Some v) →
  ∃ w', call x y w gt normed max_edges beta timeout similarity = (inl v, w') ∧
    ged_calls float w' = ged_calls float w ∧
    default_factory (GED_table float w') = default_factory (GED_table float w) ∧
    ∀ p q, cached float (GED_table float w') p q
           = cached float (GED_table float w) p q.
Proof.
  intros Hc. unfold GED_hashtable_hashed.
  destruct (ged_lookup_spec (GED_table float w) x y) as (H1 & Hf1 & Hv1 & _).
  destruct (ged_lookup float (GED_table float w) x y) as [r1 T1].
  simpl in H1, Hf1, Hv1. subst r1.
  destruct (cached float (GED_table float w) x y) as [v1|] eqn:Hxy.
  { destruct Hc as [[= ->]|[? _]]; [|done]. by eexists. }
  destruct Hc as [?|[_ Hyx]]; [done|].
  destruct (ged_lookup_spec T1 y x) as (H2 & Hf2 & Hv2 & _).
  destruct (ged_lookup float T1 y x) as [r2 T2].
  simpl in H2, Hf2, Hv2. subst r2. rewrite Hv1, Hyx.
  eexists. split; [done|]. simpl. split; [done|]. split; [congruence|].
  intros p q. by rewrite Hv2, Hv1.
Qed.

(** A call that misses in both orientations and finds both representatives
    asks the oracle. *)
Lemma GED_miss a b w gt normed max_edges beta timeout similarity G H :
  cached float (GED_table float w) a b = None →
  cached float (GED_table float w) b a = None →
  representative gt a = Some G → representative gt b = Some H →
  ∃ T2, default_factory T2 = default_factory (GED_table float w) ∧
    (∀ p q, cached float T2 p q = cached float (GED_table float w) p q) ∧
    (default_factory (GED_table float w) = false → T2 = GED_table float w) ∧
    call a b w gt normed max_edges beta timeout similarity =
    let calls := (ged_calls float w ++ [(G, H, timeout)]) in
    match ged G H timeout with
    | inr e => (inr (OracleFailure e), mkWorld float T2 calls)
    | inl d =>
        match ged_store float T2 a b (value similarity normed beta d) with
        | Some T3 => (inl (value similarity normed beta d), mkWorld float T3 calls)
        | None => (inr KeyError, mkWorld float T2 calls)
        end
    end.
Proof.
  intros Hab Hba HG HH. unfold GED_hashtable_hashed.
  destruct (ged_lookup_spec (GED_table float w) a b) as (H1 & Hf1 & Hv1 & He1).
  destruct (ged_lookup float (GED_table float w) a b) as [r1 T1].
  simpl in H1, Hf1, Hv1, He1. subst r1. rewrite Hab.
  destruct (ged_lookup_spec T1 b a) as (H2 & Hf2 & Hv2 & He2).
  destruct (ged_lookup float T1 b a) as [r2 T2].
  simpl in H2, Hf2, Hv2, He2. subst r2. rewrite Hv1, Hba, HG, HH.
  exists T2. split; [congruence|]. split.
  { intros p q. by rewrite Hv2, Hv1. }
  split.
  { intros Hf. rewrite He2 by congruence. by apply He1. }
  simpl. destruct (ged G H timeout) as [d|e]; [|done].
  unfold fresh_value. by destruct similarity.
Qed.

(** A call that returned a scalar after asking the oracle: what it found,
    what it returned and what it wrote. *)
Lemma GED_fresh_inv a b w0 gt normed max_edges beta timeout similarity v w1 :
  call a b w0 gt normed max_edges beta timeout similarity = (inl v, w1) →
  ged_calls float w1 ≠ ged_calls float w0 →
  ∃ G H d,
    cached float (GED_table float w0) a b = None ∧
    cached float (GED_table float w0) b a = None ∧
    representative gt a = Some G ∧ representative gt b = Some H ∧
    ged G H timeout = inl d ∧ v = value similarity normed beta d ∧
    ged_calls float w1 = (ged_calls float w0 ++ [(G, H, timeout)]) ∧
    ∀ p q, cached float (GED_table float w1) p q =
           if decide (p = a ∧ q = b) then Some v
           else cached float (GED_table float w0) p q.
Proof.
  intros Hcall Hne.
  destruct (cached float (GED_table float w0) a b) as [x|] eqn:Hab.
  { destruct (GED_hit a b w0 gt normed max_edges beta timeout similarity x)
      as (w' & Hw' & Hc & _); [by left|].
    rewrite Hw' in Hcall. by simplify_eq. }
  destruct (cached float (GED_table float w0) b a) as [x|] eqn:Hba.
  { destruct (GED_hit a b w0 gt normed max_edges beta timeout similarity x)
      as (w' & Hw' & Hc & _); [by right|].
    rewrite Hw' in Hcall. by simplify_eq. }
  destruct (representative gt a) as [G|] eqn:HG; last first.
  { exfalso. unfold GED_hashtable_hashed in Hcall.
    destruct (ged_lookup_spec (GED_table float w0) a b) as (H1 & _ & Hv1 & _).
    destruct (ged_lookup float (GED_table float w0) a b) as [r1 T1].
    simpl in H1, Hv1. subst r1. rewrite Hab in Hcall.
    destruct (ged_lookup_spec T1 b a) as (H2 & _).
    destruct (ged_lookup float T1 b a) as [r2 T2].
    simpl in H2. subst r2. rewrite Hv1, Hba, HG in Hcall. done. }
  destruct (representative gt b) as [H|] eqn:HH; last first.
  { exfalso. unfold GED_hashtable_hashed in Hcall.
    destruct (ged_lookup_spec (GED_table float w0) a b) as (H1 & _ & Hv1 & _).
    destruct (ged_lookup float (GED_table float w0) a b) as [r1 T1].
    simpl in H1, Hv1. subst r1. rewrite Hab in Hcall.
    destruct (ged_lookup_spec T1 b a) as (H2 & _).
    destruct (ged_lookup float T1 b a) as [r2 T2].
    simpl in H2. subst r2. rewrite Hv1, Hba, HG, HH in Hcall. done. }
  destruct (GED_miss a b w0 gt normed max_edges beta timeout similarity G H
              Hab Hba HG HH) as (T2 & Hf2 & Hv2 & _ & Hrun).
  rewrite Hrun in Hcall. simpl in Hcall. exists G, H.
  destruct (ged G H timeout) as [d|e]; [|done]. exists d.
  destruct (ged_store float T2 a b _) as [T3|] eqn:Hst; [|done].
  simplify_eq. simpl. repeat split; try done.
  intros p q. destruct (ged_store_spec _ _ _ _ _ Hst) as [_ Hv3].
  rewrite Hv3. destruct (decide (p = a ∧ q = b)); [done|]. apply Hv2.
Qed.

(** After such a call, every call for the pair, in either orientation and
    under any flags, in a state that caches what the call left, returns
    the scalar of that call and does not ask the oracle. *)
Lemma GED_later_calls a b w0 gt normed max_edges beta timeout similarity v w1 :
  call a b w0 gt normed max_edges beta timeout similarity = (inl v, w1) →
  ged_calls float w1 ≠ ged_calls float w0 →
  ∀ w gt' normed' max_edges' beta' timeout' similarity' x y,
    (∀ p q, cached float (GED_table float w) p q
            = cached float (GED_table float w1) p q) →
    (x = a ∧ y = b) ∨ (x = b ∧ y = a) →
    ∃ w', call x y w gt' normed' max_edges' beta' timeout' similarity'
            = (inl v, w') ∧
      ged_calls float w' = ged_calls float w ∧
      ∀ p q, cached float (GED_table float w') p q
             = cached float (GED_table float w1) p q.
Proof.
  intros Hcall Hne w gt' normed' max_edges' beta' timeout' similarity' x y Hw Hxy.
  destruct (GED_fresh_inv _ _ _ _ _ _ _ _ _ _ _ Hcall Hne)
    as (G & H & d & Hab & Hba & _ & _ & _ & _ & _ & Hv).
  assert (cached float (GED_table float w) x y = Some v ∨
          (cached float (GED_table float w) x y = None ∧
           cached float (GED_table float w) y x = Some v)) as Hc.
  { rewrite !Hw, !Hv. destruct Hxy as [[-> ->]|[-> ->]].
    - left. by rewrite decide_True.
    - destruct (decide (b = a ∧ a = b)) as [_|Hn]; [by left|].
      right. by rewrite decide_True, Hba. }
  destruct (GED_hit x y w gt' normed' max_edges' beta' timeout' similarity'
              v Hc) as (w' & Hw' & Hcalls & _ & Hv').
  exists w'. split; [done|]. split; [done|]. intros p q. by rewrite Hv', Hw.
Qed.

(** C4. When [GED_hashtable_hashed(a, b, ...)] returns a value it computed
    with the oracle, the table holds that value under [[a][b]] and no other
    pair changed, so [[b][a]] holds nothing (for [a] and [b] distinct, else
    the two are one entry); every later call for [(b, a)] or [(a, b)], under
    any flags, returns that value and makes no call to the oracle. *)
Theorem GED_cache_symmetry
    a b w0 gt normed max_edges beta timeout similarity v w1 :
  call a b w0 gt normed max_edges beta timeout similarity = (inl v, w1) →
  ged_calls float w1 ≠ ged_calls float w0 →
  is_Some (representative gt a) ∧ is_Some (representative gt b) ∧
  cached float (GED_table float w1) a b = Some v ∧
  (∀ p q, ¬ (p = a ∧ q = b) →
     cached float (GED_table float w1) p q
     = cached float (GED_table float w0) p q) ∧
  (a ≠ b → cached float (GED_table float w1) b a = None) ∧
  ∀ w gt' normed' max_edges' beta' timeout' similarity',
    (∀ p q, cached float (GED_table float w) p q
            = cached float (GED_table float w1) p q) →
    (∃ w', call b a w gt' normed' max_edges' beta' timeout' similarity'
             = (inl v, w') ∧
       ged_calls float w' = ged_calls float w ∧
       ∀ p q, cached float (GED_table float w') p q
              = cached float (GED_table float w1) p q) ∧
    (∃ w', call a b w gt' normed' max_edges' beta' timeout' similarity'
             = (inl v, w') ∧
       ged_calls float w' = ged_calls float w ∧
       ∀ p q, cached float (GED_table float w') p q
              = cached float (GED_table float w1) p q).
Proof.
  intros Hcall Hne.
  destruct (GED_fresh_inv _ _ _ _ _ _ _ _ _ _ _ Hcall Hne)
    as (G & H & d & Hab & Hba & HG & HH & _ & _ & _ & Hv).
  split; [by rewrite HG|]. split; [by rewrite HH|].
  split; [by rewrite Hv, decide_True|].
  split; [by intros p q Hpq; rewrite Hv, decide_False|].
  split.
  { intros Hne'. rewrite Hv, decide_False; [done|]. by intros [-> _]. }
  intros w gt' normed' max_edges' beta' timeout' similarity' Hw. split.
  - eapply GED_later_calls; eauto.
  - eapply GED_later_calls; eauto.
Qed.

(** C10. The scalar cached for a pair is the one its first call computed
    under its own flags; later calls for the pair, in either orientation
    and under any flags, return it.  After a first call that asked for the
    similarity, a call that asks for the normalised distance gets the
    similarity [exp(-beta * d)]. *)
Theorem GED_first_flags_win
    a b w0 gt normed max_edges beta timeout similarity v w1 :
  call a b w0 gt normed max_edges beta timeout similarity = (inl v, w1) →
  ged_calls float w1 ≠ ged_calls float w0 →
  ∃ G H d,
    representative gt a = Some G ∧ representative gt b = Some H ∧
    ged G H timeout = inl d ∧
    v = value similarity normed beta d ∧
    cached float (GED_table float w1) a b = Some v ∧
    (similarity = true → v = np_exp (fmul (fneg beta) d)) ∧
    ∀ w gt' normed' max_edges' beta' timeout' similarity' x y,
      (∀ p q, cached float (GED_table float w) p q
              = cached float (GED_table float w1) p q) →
      (x = a ∧ y = b) ∨ (x = b ∧ y = a) →
      (call x y w gt' normed' max_edges' beta' timeout' similarity').1
        = inl v.
Proof.
  intros Hcall Hne.
  destruct (GED_fresh_inv _ _ _ _ _ _ _ _ _ _ _ Hcall Hne)
    as (G & H & d & Hab & Hba & HG & HH & Hd & Hval & _ & Hv).
  exists G, H, d. repeat split; try done.
  - by rewrite Hv, decide_True.
  - intros ->. by rewrite Hval.
  - intros w gt' normed' max_edges' beta' timeout' similarity' x y Hw Hxy.
    destruct (GED_later_calls _ _ _ _ _ _ _ _ _ _ _ Hcall Hne
                w gt' normed' max_edges' beta' timeout' similarity' x y Hw Hxy)
      as (w' & Hw' & _). by rewrite Hw'.
Qed.

(** C5 (as amended). When the oracle fails, the call raises that failure and
    caches nothing: every pair holds what it held.  A plain dictionary is
    then exactly as before the call. *)
Theorem GED_oracle_failure
    a b w0 gt normed max_edges beta timeout similarity G H e :
  cached float (GED_table float w0) a b = None →
  cached float (GED_table float w0) b a = None →
  representative gt a = Some G → representative gt b = Some H →
  ged G H timeout = inr e →
  ∃ w1, call a b w0 gt normed max_edges beta timeout similarity
          = (inr (OracleFailure e), w1) ∧
    (∀ p q, cached float (GED_table float w1) p q
            = cached float (GED_table float w0) p q) ∧
    (default_factory (GED_table float w0) = false →
       GED_table float w1 = GED_table float w0).
Proof.
  intros Hab Hba HG HH He.
  destruct (GED_miss a b w0 gt normed max_edges beta timeout similarity G H
              Hab Hba HG HH) as (T2 & Hf2 & Hv2 & He2 & Hrun).
  rewrite Hrun, He. simpl. eexists. split; [done|]. simpl. by split.
Qed.
End GED_facts.

(** The first call for [("a", "b")] asks for the similarity; the second, for
    [("b", "a")], asks for the normalised distance and gets the similarity. *)
Lemma GED_cache_symmetry_witness :
  let call := GED_hashtable_hashed sfloat SExp SMul SSub SNeg (SConst 1)
                string ged_three in
  let v := SExp (SMul (SNeg (SConst 2)) (SConst 3)) in
  let w1 := (call "a" "b" empty_world two_buckets true 7%Z (SConst 2) 60%Z true).2 in
  call "a" "b" empty_world two_buckets true 7%Z (SConst 2) 60%Z true = (inl v, w1) ∧
  ged_calls sfloat w1 ≠ ged_calls sfloat empty_world ∧
  cached sfloat (GED_table sfloat w1) "a" "b" = Some v ∧
  cached sfloat (GED_table sfloat w1) "b" "a" = None ∧
  ∃ w2, call "b" "a" w1 two_buckets true 7%Z (SConst 2) 60%Z false = (inl v, w2) ∧
        ged_calls sfloat w2 = ged_calls sfloat w1.
Proof.
  intros call v w1.
  assert (call "a" "b" empty_world two_buckets true 7%Z (SConst 2) 60%Z true
          = (inl v, w1)) as H1 by (vm_compute; reflexivity).
  assert (ged_calls sfloat w1 ≠ ged_calls sfloat empty_world) as H2
    by (vm_compute; discriminate).
  destruct (GED_cache_symmetry SExp SMul SSub SNeg (SConst 1) ged_three
              _ _ _ _ _ _ _ _ _ _ _ H1 H2)
    as (_ & _ & Hab & _ & Hba & Hlater).
  split; [exact H1|]. split; [exact H2|]. split; [exact Hab|].
  split; [apply Hba; discriminate|].
  destruct (Hlater w1 two_buckets true 7%Z (SConst 2) 60%Z false
              (λ _ _, eq_refl)) as [(w2 & Hw2 & Hc & _) _].
  exists w2. split; [exact Hw2|exact Hc].
Defined.

Lemma GED_first_flags_win_witness :
  let call := GED_hashtable_hashed sfloat SExp SMul SSub SNeg (SConst 1)
                string ged_three in
  let v := SExp (SMul (SNeg (SConst 2)) (SConst 3)) in
  let w1 := (call "a" "b" empty_world two_buckets true 7%Z (SConst 2) 60%Z true).2 in
  call "a" "b" empty_world two_buckets true 7%Z (SConst 2) 60%Z true = (inl v, w1) ∧
  ged_calls sfloat w1 ≠ ged_calls sfloat empty_world ∧
  (call "b" "a" w1 two_buckets true 7%Z (SConst 5) 10%Z false).1 = inl v ∧
  (call "a" "b" w1 two_buckets false 7%Z (SConst 5) 10%Z false).1 = inl v.
Proof.
  intros call v w1.
  assert (call "a" "b" empty_world two_buckets true 7%Z (SConst 2) 60%Z true
          = (inl v, w1)) as H1 by (vm_compute; reflexivity).
  assert (ged_calls sfloat w1 ≠ ged_calls sfloat empty_world) as H2
    by (vm_compute; discriminate).
  destruct (GED_first_flags_win SExp SMul SSub SNeg (SConst 1) ged_three
              _ _ _ _ _ _ _ _ _ _ _ H1 H2)
    as (G & H & d & _ & _ & _ & _ & _ & _ & Hlater).
  split; [exact H1|]. split; [exact H2|]. split.
  - apply Hlater; [intros; reflexivity|]. right. split; reflexivity.
  - apply Hlater; [intros; reflexivity|]. left. split; reflexivity.
Defined.

Lemma GED_oracle_failure_witness :
  let call := GED_hashtable_hashed sfloat SExp SMul SSub SNeg (SConst 1)
                string ged_timeout in
  let w0 := mkWorld sfloat (mkGEDTable false {[ "a" := ∅ ]}) [] in
  cached sfloat (GED_table sfloat w0) "a" "b" = None ∧
  cached sfloat (GED_table sfloat w0) "b" "a" = None ∧
  ∃ w1, call "a" "b" w0 two_buckets true 7%Z (SConst 2) 60%Z false
          = (inr (OracleFailure "timeout"), w1) ∧
        GED_table sfloat w1 = GED_table sfloat w0.
Proof.
  intros call w0.
  assert (cached sfloat (GED_table sfloat w0) "a" "b" = None) as H1
    by reflexivity.
  assert (cached sfloat (GED_table sfloat w0) "b" "a" = None) as H2
    by reflexivity.
  split; [exact H1|]. split; [exact H2|].
  destruct (GED_oracle_failure SExp SMul SSub SNeg (SConst 1) ged_timeout
              "a" "b" w0 two_buckets true 7%Z (SConst 2) 60%Z false
              G1_doctest G2_doctest "timeout" H1 H2 eq_refl eq_refl eq_refl)
    as (w1 & Hw1 & _ & Hplain).
  exists w1. split; [exact Hw1|]. apply Hplain. reflexivity.
Defined.

(** With a [defaultdict(dict)] the two failed lookups leave empty inner
    dictionaries under both digests: the table is not as it was. *)
Lemma GED_oracle_failure_defaultdict :
  let r := GED_hashtable_hashed sfloat SExp SMul SSub SNeg (SConst 1)
             string ged_timeout "a" "b" empty_world two_buckets
             true 7%Z (SConst 2) 60%Z false in
  r.1 = inr (OracleFailure "timeout") ∧
  cached sfloat (GED_table sfloat r.2) "a" "b" = None ∧
  entries (GED_table sfloat r.2) = {[ "a" := ∅; "b" := ∅ ]} ∧
  GED_table sfloat r.2 ≠ GED_table sfloat empty_world.
Proof.
  vm_compute. repeat split; discriminate.
Qed.

(** ** Worked examples of the canonicalisation *)

Lemma wf_graph_decide G : bool_decide (wf_graph G) = true → wf_graph G.
Proof. apply bool_decide_eq_true_1. Qed.

Example canonicalize_CSH : canonicalize "CSH" = Some "CHS".
Proof. reflexivity. Qed.

Example canonicalize_TWH : canonicalize "TWH" = Some "THW".
Proof. reflexivity. Qed.

Example canonicalize_empty : canonicalize "" = None.
Proof. reflexivity. Qed.

Example canonicalize_edges_pair :
  canonicalize_edges Hasher_default G_pair_undirected =
  Some (mkGraph false
          (list_to_map [(residue 1, ∅); (residue 2, ∅)])
          (list_to_map
             [(residue 1, {[ residue 2 := {[ "LW" := "CHS" ]} ]});
              (residue 2, {[ residue 1 := {[ "LW" := "CHS" ]} ]})])).
Proof. vm_compute. reflexivity. Qed.

Lemma canonicalization_idempotent_witness :
  graph_symmetric G_pair_undirected ∧
  canonicalize "CSH" ≫= canonicalize = canonicalize "CSH" ∧
  canonicalize_edges Hasher_default G_pair_undirected
    ≫= canonicalize_edges Hasher_default
  = canonicalize_edges Hasher_default G_pair_undirected.
Proof.
  assert (graph_symmetric G_pair_undirected) as Hsym.
  { apply wf_graph_symmetric, wf_graph_decide. vm_compute. reflexivity. }
  split; [exact Hsym|].
  destruct (canonicalization_idempotent "CSH" Hasher_default
              G_pair_undirected Hsym) as (Hl & _ & Hg).
  split; [exact Hl|exact Hg].
Defined.

(** ** The hash table *)

Lemma with_digest_snoc h processed n h' :
  with_digest h (processed ++ [(n, h')]) =
  with_digest h processed ++ (if decide (h' = h) then [(n, h')] else []).
Proof.
  unfold with_digest. rewrite filter_app. by f_equal.
Qed.

Lemma add_graphlet_table_of mode hash_table processed h n :
  table_of mode processed hash_table →
  ∃ hash_table', add_graphlet mode hash_table h n = Some hash_table' ∧
    table_of mode (processed ++ [(n, h)]) hash_table'.
Proof.
  intros Ht. unfold add_graphlet. rewrite (Ht h).
  assert (∀ b, expected_bucket mode (processed ++ [(n, h)]) h = Some b →
    table_of mode (processed ++ [(n, h)]) (<[h := b]> hash_table)) as Hins.
  { intros b Hb h'. destruct (decide (h = h')) as [<-|Hh].
    - by rewrite lookup_insert_eq.
    - rewrite lookup_insert_ne by done. rewrite (Ht h').
      unfold expected_bucket. rewrite with_digest_snoc.
      rewrite decide_False by done. by rewrite app_nil_r. }
  unfold expected_bucket in *. rewrite with_digest_snoc in Hins.
  rewrite decide_True in Hins by done.
  destruct (with_digest h processed) as [|x l]; simpl in *.
  - destruct (decide (mode = "append")); eexists; (split; [done|]);
      by apply Hins.
  - destruct (decide (mode = "append")); eexists; (split; [done|]);
      apply Hins; do 2 f_equal.
    + by rewrite fmap_app.
    + rewrite length_app. simpl. lia.
Qed.

Lemma bucket_le_refl b : bucket_le b b.
Proof. destruct b as [[gs|g c]|]; simpl; done. Qed.

Lemma bucket_le_trans b1 b2 b3 :
  bucket_le b1 b2 → bucket_le b2 b3 → bucket_le b1 b3.
Proof.
  destruct b1 as [[gs1|g1 c1]|], b2 as [[gs2|g2 c2]|], b3 as [[gs3|g3 c3]|];
    simpl; try done.
  - by etrans.
  - intros [-> ?] [-> ?]. split; [done|lia].
Qed.

Lemma bucket_le_size b b' : bucket_le b b' → bucket_size b ≤ bucket_size b'.
Proof.
  destruct b as [[gs|g c]|], b' as [[gs'|g' c']|]; simpl; try done; try lia.
  apply prefix_length.
Qed.

Lemma bucket_le_is_Some b b' : bucket_le b b' → is_Some b → is_Some b'.
Proof.
  destruct b as [[gs|g c]|], b' as [[gs'|g' c']|]; simpl; try done.
  all: by intros _ [? ?].
Qed.

(** Whatever the table, adding a graphlet shrinks no bucket. *)
Lemma add_graphlet_mono mode hash_table h n hash_table' :
  add_graphlet mode hash_table h n = Some hash_table' →
  ∀ h', bucket_le (hash_table !! h') (hash_table' !! h').
Proof.
  unfold add_graphlet. intros Hadd h'.
  destruct (decide (h = h')) as [<-|Hh]; last first.
  { assert (hash_table' !! h' = hash_table !! h') as ->;
      [|apply bucket_le_refl].
    destruct (hash_table !! h) as [[gs|g c]|], (decide (mode = "append"));
      simplify_eq; by rewrite lookup_insert_ne. }
  destruct (hash_table !! h) as [[gs|g c]|] eqn:Hh,
    (decide (mode = "append")); simplify_eq;
    rewrite lookup_insert_eq; simpl; try done.
  - by apply prefix_app_r.
  - split; [done|lia].
Qed.

Lemma for_each_st_app {S X : Type} (body : S → X → outcome S) xs1 xs2 s :
  for_each_st body s (xs1 ++ xs2) =
  match for_each_st body s xs1 with
  | Done s1 => for_each_st body s1 xs2
  | Raised s1 => Raised s1
  end.
Proof.
  revert s. induction xs1 as [|x xs1 IH]; intros s; simpl; [done|].
  by destruct (body s x).
Qed.


Lemma for_each_st_mono {S X : Type} (R : relation S) `{!PreOrder R}
    (body : S → X → outcome S) :
  (∀ s x, R s (outcome_state (body s x))) →
  ∀ xs s, R s (outcome_state (for_each_st body s xs)).
Proof.
  intros Hbody. induction xs as [|x xs IH]; intros s; simpl; [done|].
  specialize (Hbody s x). destruct (body s x) as [s'|s']; simpl in *.
  - by etrans.
  - done.
Qed.

#[local] Instance table_le_preorder : PreOrder table_le.
Proof.
  split.
  - intros t h. apply bucket_le_refl.
  - intros t1 t2 t3 H12 H23 h. by eapply bucket_le_trans.
Qed.

Section build_facts.
Variable digest_of_counts : list (string * nat) → string.
Variable listdir : string → list string.
Variable load_json : string → string → option Graph.
Variable to_undirected : Graph → Graph.
Variables (graph_dir : string) (hasher : Hasher) (graphlets : bool).
Variables (graphlet_size : nat) (mode label : string) (directed : bool).

#[local] Abbreviation step := (hash_into digest_of_counts hasher mode).
#[local] Abbreviation gstep :=
  (build_graph digest_of_counts load_json to_undirected graph_dir hasher
     graphlets graphlet_size mode label directed).
#[local] Abbreviation htrace := (hash_trace digest_of_counts hasher).
#[local] Abbreviation ctrace :=
  (corpus_trace digest_of_counts load_json to_undirected graph_dir hasher
     graphlets graphlet_size label directed).

Lemma hash_into_mono t n : table_le t (outcome_state (step t n)).
Proof.
  unfold hash_into.
  destruct (Hasher_hash digest_of_counts hasher n) as [[n' h]|]; [|done].
  destruct (add_graphlet mode t h n') as [t'|] eqn:Hadd; [|done].
  simpl. intros h'. by eapply add_graphlet_mono.
Qed.

Lemma build_graph_mono t g : table_le t (outcome_state (gstep t g)).
Proof.
  unfold build_graph. destruct (load_json graph_dir g) as [G|]; [|done].
  apply (for_each_st_mono table_le). apply hash_into_mono.
Qed.

Lemma hash_into_loop todo : ∀ t P,
  table_of mode P t →
  ∃ t', for_each_st step t todo
          = (if (htrace todo).2 then Done t' else Raised t') ∧
        table_of mode (P ++ (htrace todo).1) t'.
Proof.
  induction todo as [|n todo IH]; intros t P Ht; simpl.
  - exists t. by rewrite app_nil_r.
  - unfold hash_into at 1.
    destruct (Hasher_hash digest_of_counts hasher n) as [[n' h]|]; simpl.
    + destruct (add_graphlet_table_of mode t P h n' Ht) as (t1 & -> & Ht1).
      destruct (IH t1 _ Ht1) as (t' & Hrun & Ht').
      destruct (htrace todo) as [tr ok]. simpl in *.
      exists t'. split; [done|]. by rewrite cons_middle, app_assoc.
    + exists t. by rewrite app_nil_r.
Qed.

Lemma build_loop_trace graphlist : ∀ t P,
  table_of mode P t →
  ∃ t', for_each_st gstep t graphlist
          = (if (ctrace graphlist).2 then Done t' else Raised t') ∧
        table_of mode (P ++ (ctrace graphlist).1) t'.
Proof.
  induction graphlist as [|g graphlist IH]; intros t P Ht; simpl.
  - exists t. by rewrite app_nil_r.
  - unfold build_graph at 1.
    destruct (load_json graph_dir g) as [G|]; simpl; last first.
    { exists t. by rewrite app_nil_r. }
    destruct (hash_into_loop
                (todo_of graphlets graphlet_size label
                   (if directed then G else to_undirected G)) t P Ht)
      as (t1 & -> & Ht1).
    destruct (htrace _) as [tr [|]]; simpl in *.
    + destruct (IH t1 _ Ht1) as (t' & Hrun & Ht').
      destruct (ctrace graphlist) as [tr' ok']. simpl in *.
      exists t'. split; [done|]. by rewrite app_assoc.
    + by exists t1.
Qed.

Lemma expected_bucket_size processed h :
  bucket_size (expected_bucket mode processed h) = digest_count h processed.
Proof.
  unfold expected_bucket, digest_count.
  destruct (with_digest h processed) as [|x l]; [done|].
  destruct (decide (mode = "append")); simpl; [|done].
  by rewrite length_fmap.
Qed.

(** C3. After [build_hash_table] has processed the graphlets of the corpus,
    the bucket of every digest [h] counts the [N] processed graphlets whose
    digest is [h]: its counter is [N] in count mode, its list has [N] graphs
    in append mode; a bucket exists only for a digest some processed
    graphlet has; and no step of the construction, for one graphlet or for
    one graph, makes the count of any digest smaller. *)
Theorem hash_table_accumulation (max_graphs : Z) (t : gmap string bucket) :
  build_hash_table digest_of_counts listdir load_json to_undirected
    graph_dir hasher graphlets max_graphs graphlet_size mode label directed
  = Some t →
  let graphlist := graphlist_of listdir graph_dir max_graphs in
  let processed := (ctrace graphlist).1 in
  (ctrace graphlist).2 = true ∧
  (∀ h, let N := digest_count h processed in
     bucket_size (t !! h) = N ∧
     (is_Some (t !! h) ↔ 0 < N) ∧
     (mode = "append" → 0 < N →
        ∃ graphs, t !! h = Some (BucketGraphs graphs) ∧ length graphs = N) ∧
     (mode ≠ "append" → 0 < N →
        ∃ graph, t !! h = Some (BucketCount graph N))) ∧
  (∀ gl1 gl2 t1 h, graphlist = gl1 ++ gl2 →
     for_each_st gstep ∅ gl1 = Done t1 →
     bucket_size (t1 !! h) ≤ bucket_size (t !! h)) ∧
  (∀ t0 n h,
     bucket_size (t0 !! h) ≤ bucket_size (outcome_state (step t0 n) !! h)) ∧
  (∀ t0 g h,
     bucket_size (t0 !! h) ≤ bucket_size (outcome_state (gstep t0 g) !! h)).
Proof.
  intros Hbuild graphlist processed.
  unfold build_hash_table, build_loop in Hbuild.
  destruct (build_loop_trace graphlist ∅ []) as (t' & Hrun & Ht'); [done|].
  fold graphlist in Hbuild. rewrite Hrun in Hbuild. simpl in Ht'.
  destruct ((ctrace graphlist).2) eqn:Hok; [|done].
  injection Hbuild as ->. split; [done|]. split; [|split; [|split]].
  - intros h N. rewrite (Ht' h). fold processed.
    pose proof (expected_bucket_size processed h) as Hsize. fold N in Hsize.
    split; [done|]. unfold expected_bucket, digest_count in *.
    destruct (with_digest h processed) as [|x l] eqn:Hl; simpl in *.
    + subst N. split; [|split; intros; lia].
      split; [by intros [? ?]|lia].
    + split; [split; [lia|by eexists]|].
      split; intros Hm _.
      * rewrite decide_True by done. eexists. split; [done|].
        simpl. rewrite length_fmap. lia.
      * rewrite decide_False by done. by eexists.
  - intros gl1 gl2 t1 h Hsplit Hrun1.
    rewrite Hsplit, for_each_st_app, Hrun1 in Hrun.
    apply bucket_le_size.
    pose proof (for_each_st_mono table_le gstep build_graph_mono gl2 t1) as H.
    rewrite Hrun in H. apply H.
  - intros t0 n h. apply bucket_le_size, hash_into_mono.
  - intros t0 g h. apply bucket_le_size, build_graph_mono.
Qed.

End build_facts.

(** ** Worked examples of the hash table *)

Lemma hash_table_accumulation_witness :
  let digest := "(B53B53B53B53,2)(B53B53B53B53B53B53,1)" in
  ∃ t,
    build_hash_table show_counts corpus_listdir doctest_load_json
      to_undirected_merge "dir" Hasher_default true 0 2 "count" "LW" true
    = Some t ∧
    bucket_size (t !! digest) = 6 ∧
    digest_count digest
      (corpus_trace show_counts doctest_load_json to_undirected_merge "dir"
         Hasher_default true 2 "LW" true ["g1.json"; "g2.json"]).1 = 6.
Proof.
  intros digest.
  destruct (build_hash_table show_counts corpus_listdir doctest_load_json
              to_undirected_merge "dir" Hasher_default true 0 2 "count" "LW"
              true) as [t|] eqn:Hbuild; [|by vm_compute in Hbuild].
  exists t. split; [reflexivity|].
  destruct (hash_table_accumulation _ _ _ _ _ _ _ _ _ _ _ _ _ Hbuild)
    as (_ & Hcount & _).
  destruct (Hcount digest) as (Hsize & _).
  split; [exact Hsize|]. vm_compute. reflexivity.
Defined.



(** ** Dictionaries over corresponding keys *)

Section bijection.
Variables f g : node → node.
Hypothesis cancel_l : ∀ u, g (f u) = u.
Hypothesis cancel_r : ∀ u, f (g u) = u.

Lemma f_inj u v : f u = f v → u = v.
Proof. intros H. by rewrite <- (cancel_l u), H, cancel_l. Qed.

(** Two dictionaries that agree, up to [psi1] and [psi2], on corresponding
    keys have the same items up to order. *)
Lemma map_to_list_bij {A B : Type} (psi1 psi2 : node → A → B)
    (m1 : gmap node A) : ∀ m2 : gmap node A,
  (∀ u, psi2 (f u) <$> m2 !! f u = psi1 u <$> m1 !! u) →
  (λ e, psi2 e.1 e.2) <$> map_to_list m2 ≡ₚ
  (λ e, psi1 e.1 e.2) <$> map_to_list m1.
Proof.
  induction m1 as [|i x m Hi IH] using map_ind; intros m2 H.
  - assert (m2 = ∅) as ->.
    { apply map_empty. intros k. specialize (H (g k)).
      rewrite cancel_r, lookup_empty in H. by destruct (m2 !! k). }
    by rewrite !map_to_list_empty.
  - pose proof (H i) as Hfi. rewrite lookup_insert_eq in Hfi.
    destruct (m2 !! f i) as [y|] eqn:Hy; [|done]. simpl in Hfi.
    rewrite <- (map_to_list_delete m2 (f i) y Hy).
    rewrite (map_to_list_insert m i x Hi). simpl.
    injection Hfi as ->. constructor. apply IH. intros u.
    destruct (decide (u = i)) as [->|Hu].
    + by rewrite lookup_delete_eq, Hi.
    + rewrite lookup_delete_ne by (by intros ?%f_inj).
      specialize (H u). by rewrite lookup_insert_ne in H.
Qed.

Lemma labels_rel_values L1 L2 :
  labels_rel f L1 L2 → (map_to_list L2).*2 ≡ₚ (map_to_list L1).*2.
Proof.
  intros H. apply (map_to_list_bij (λ _ x, x) (λ _ x, x)).
  intros u. by rewrite !option_fmap_id, (H u).
Qed.
End bijection.

(** ** Permuted lists *)

Lemma mapM_id_perm {A : Type} (l1 l2 : list (option A)) :
  l1 ≡ₚ l2 → option_Forall2 (≡ₚ) (mapM id l1) (mapM id l2).
Proof.
  induction 1 as [|x l1 l2 _ IH|x y l|l1 l2 l3 _ IH1 _ IH2]; simpl.
  - by constructor.
  - destruct x as [a|]; simpl; [|constructor].
    destruct IH as [k1 k2 Hk|]; simpl; constructor. by constructor.
  - destruct x as [a|], y as [b|], (mapM id l) as [k|]; simpl;
      constructor. apply perm_swap.
  - by etrans.
Qed.

Lemma mapM_as_id {A B : Type} (phi : A → option B) (l : list A) :
  mapM phi l = mapM id (phi <$> l).
Proof. induction l as [|x l IH]; simpl; [done|]. by rewrite IH. Qed.

Lemma Counter_perm (l1 l2 : list string) :
  l1 ≡ₚ l2 → Counter l1 = Counter l2.
Proof.
  induction 1 as [|x l1 l2 _ IH|x y l|l1 l2 l3 _ IH1 _ IH2]; simpl.
  - done.
  - by rewrite IH.
  - destruct (decide (x = y)) as [->|Hxy]; [done|].
    rewrite !(lookup_insert_ne (Counter l)) by done.
    by rewrite insert_insert_ne.
  - by etrans.
Qed.

(** ** Dictionary comprehensions *)

Lemma dict_comp_Some {V : Type} (F : node → option V) keys m :
  dict_comp F keys = Some m →
  ∀ k, m !! k = if decide (k ∈ keys) then F k else None.
Proof.
  unfold dict_comp. revert m.
  induction keys as [|k0 keys IH]; intros m Hm k; simpl in Hm.
  - simplify_eq. rewrite lookup_empty. by rewrite decide_False by set_solver.
  - destruct (F k0) as [v0|] eqn:H0; simpl in Hm; [|done].
    destruct (mapM _ keys) as [l|]; simpl in Hm; [|done].
    simplify_eq. simpl. destruct (decide (k = k0)) as [->|Hk].
    + rewrite lookup_insert_eq. by rewrite decide_True by set_solver.
    + rewrite lookup_insert_ne by done. rewrite (IH _ eq_refl k).
      destruct (decide (k ∈ keys)).
      * by rewrite decide_True by set_solver.
      * by rewrite decide_False by set_solver.
Qed.

Lemma dict_comp_None {V : Type} (F : node → option V) keys :
  dict_comp F keys = None ↔ ∃ k, k ∈ keys ∧ F k = None.
Proof.
  unfold dict_comp. rewrite fmap_None, mapM_None, Exists_exists.
  split; intros (k & Hk & HF); exists k; (split; [done|]).
  - by destruct (F k).
  - by rewrite HF.
Qed.

Lemma dict_comp_rel {V : Type} (f g : node → node)
    (F1 F2 : node → option V) keys1 keys2 :
  (∀ u, f (g u) = u) →
  (∀ u, f u ∈ keys2 ↔ u ∈ keys1) →
  (∀ u, u ∈ keys1 → F2 (f u) = F1 u) →
  option_Forall2 (λ m1 m2 : gmap node V, ∀ u, m2 !! f u = m1 !! u)
    (dict_comp F1 keys1) (dict_comp F2 keys2).
Proof.
  intros Hfg Hkeys HF.
  destruct (dict_comp F1 keys1) as [m1|] eqn:H1,
    (dict_comp F2 keys2) as [m2|] eqn:H2.
  - constructor. intros u.
    rewrite (dict_comp_Some _ _ _ H1 u), (dict_comp_Some _ _ _ H2 (f u)).
    destruct (decide (u ∈ keys1)) as [Hu|Hu].
    + rewrite decide_True by (by apply Hkeys). by apply HF.
    + by rewrite decide_False by (by rewrite Hkeys).
  - exfalso. apply dict_comp_None in H2 as (k & Hk & Hnone).
    rewrite <- (Hfg k) in Hk, Hnone. apply Hkeys in Hk.
    rewrite (HF _ Hk) in Hnone.
    assert (dict_comp F1 keys1 = None) by (apply dict_comp_None; eauto).
    congruence.
  - exfalso. apply dict_comp_None in H1 as (k & Hk & Hnone).
    rewrite <- (HF _ Hk) in Hnone.
    assert (dict_comp F2 keys2 = None).
    { apply dict_comp_None. exists (f k). split; [by apply Hkeys|done]. }
    congruence.
  - constructor.
Qed.

(** ** The refinement on isomorphic graphs *)

Section wl_iso.
Variable key : string.
Variables f g : node → node.
Variables G1 G2 : Graph.
Hypothesis Hiso : graph_iso key f g G1 G2.

Lemma iso_G_nodes u : f u ∈ G_nodes G2 ↔ u ∈ G_nodes G1.
Proof. unfold G_nodes. rewrite !elem_of_keys. apply Hiso. Qed.

Lemma nei_agg_edges_iso L1 L2 u :
  labels_rel f L1 L2 →
  nei_agg_edges G2 (f u) L2 key = nei_agg_edges G1 u L1 key.
Proof.
  intros HL. unfold nei_agg_edges. rewrite (HL u).
  destruct (L1 !! u) as [own|]; simpl; [|done].
  rewrite (mapM_as_id _ (map_to_list (G_adj G2 (f u)))),
    (mapM_as_id _ (map_to_list (G_adj G1 u))).
  set (psi := λ (L : gmap node string) (nei : node) (dd : attrs),
         e ← dd !! key; l ← L !! nei; Some (e +:+ l)).
  assert ((λ '(nei, dd), e ← dd !! key; l ← L2 !! nei; Some (e +:+ l))
            <$> map_to_list (G_adj G2 (f u))
          ≡ₚ (λ '(nei, dd), e ← dd !! key; l ← L1 !! nei; Some (e +:+ l))
            <$> map_to_list (G_adj G1 u)) as Hperm.
  { assert (∀ L (l : list (node * attrs)),
      (λ '(nei, dd), e ← dd !! key; l ← L !! nei; Some (e +:+ l)) <$> l
      = (λ e, psi L e.1 e.2) <$> l) as Heq.
    { intros L l. apply list_fmap_ext. by intros _ [nei dd] _. }
    rewrite !Heq.
    apply (map_to_list_bij f g (iso_cancel_l _ _ _ _ _ Hiso)
             (iso_cancel_r _ _ _ _ _ Hiso) (psi L1) (psi L2)
             (G_adj G1 u) (G_adj G2 (f u))).
    intros v. pose proof (iso_edge _ _ _ _ _ Hiso u v) as He.
    unfold G_getitem in He.
    destruct (G_adj G2 (f u) !! f v) as [dd2|],
      (G_adj G1 u !! v) as [dd1|]; simpl in *; try done.
    injection He as He. unfold psi. by rewrite He, (HL v). }
  destruct (mapM_id_perm _ _ Hperm) as [x2 x1 Hx|]; simpl; [|done].
  do 2 f_equal. apply (sorted_perm String.le). by constructor.
Qed.

Lemma WL_step_edges_iso L1 L2 :
  labels_rel f L1 L2 →
  option_Forall2 (labels_rel f)
    (WL_step_edges G1 L1 key) (WL_step_edges G2 L2 key).
Proof.
  intros HL. unfold WL_step_edges.
  apply (dict_comp_rel f g); [apply Hiso|apply iso_G_nodes|].
  intros u _. by apply nei_agg_edges_iso.
Qed.

Lemma wl_iterate_iso iterations : ∀ L1 L2,
  labels_rel f L1 L2 →
  option_Forall2 (labels_rel f)
    (wl_iterate G1 key iterations L1) (wl_iterate G2 key iterations L2).
Proof.
  induction iterations as [|k IH]; intros L1 L2 HL; simpl.
  - by constructor.
  - destruct (WL_step_edges_iso L1 L2 HL) as [L1' L2' HL'|]; simpl.
    + by apply IH.
    + constructor.
Qed.

Lemma wl_iso (digest_of_counts : list (string * nat) → string) iterations :
  wl digest_of_counts G2 key None iterations
  = wl digest_of_counts G1 key None iterations.
Proof.
  unfold wl, init_node_labels.
  destruct (dict_comp_rel f g (λ _, Some "") (λ _, Some "")
              (G_nodes G1) (G_nodes G2) (iso_cancel_r _ _ _ _ _ Hiso)
              iso_G_nodes (λ _ _, eq_refl)) as [L1 L2 HL|]; simpl; [|done].
  destruct (wl_iterate_iso iterations L1 L2 HL)
    as [L1' L2' HL'|]; simpl; [|done].
  do 4 f_equal. apply Counter_perm.
  by apply (labels_rel_values f g (iso_cancel_l _ _ _ _ _ Hiso)
              (iso_cancel_r _ _ _ _ _ Hiso)).
Qed.
End wl_iso.

(** ** Canonicalisation on isomorphic graphs *)

Lemma canon_attrs_lookup key dd :
  canon_attrs key dd !! key =
  match dd !! key ≫= canonicalize with
  | Some c => Some c
  | None => dd !! key
  end.
Proof.
  unfold canon_attrs.
  destruct (dd !! key ≫= canonicalize); [|done]. by rewrite lookup_insert_eq.
Qed.

Lemma canon_graph_iso key f g G1 G2 :
  graph_iso key f g G1 G2 →
  graph_iso key f g (canon_graph key G1) (canon_graph key G2).
Proof.
  intros [Hl Hr Hn Hnl He]. split; try done.
  intros u v. rewrite !G_getitem_canon_graph. specialize (He u v).
  destruct (G_getitem G2 (f u) (f v)) as [dd2|],
    (G_getitem G1 u v) as [dd1|]; simpl in *; try done.
  injection He as He. f_equal. by rewrite !canon_attrs_lookup, He.
Qed.

Lemma labels_ok_iso key f g G1 G2 :
  graph_iso key f g G1 G2 → labels_ok key G1 ↔ labels_ok key G2.
Proof.
  intros [Hl Hr Hn Hnl He]. rewrite !labels_ok_getitem. unfold label_ok.
  split.
  - intros H u v dd2 H2. specialize (He (g u) (g v)).
    rewrite !Hr, H2 in He.
    destruct (G_getitem G1 (g u) (g v)) as [dd1|] eqn:H1; [|done].
    simpl in He. injection He as He. rewrite He. by eapply H.
  - intros H u v dd1 H1. specialize (He u v). rewrite H1 in He.
    destruct (G_getitem G2 (f u) (f v)) as [dd2|] eqn:H2; [|done].
    simpl in He. injection He as He. rewrite <- He. by eapply H.
Qed.

(** C1. Two graphs that are isomorphic under a bijection of their nodes
    that preserves node labels and edge labels get the same digest from
    [Hasher.hash] (or both calls raise), whatever the hasher, so for every
    iteration count [wl_hops] and with or without canonicalisation. *)
Theorem hash_invariant_under_isomorphism
    (digest_of_counts : list (string * nat) → string)
    (self : Hasher) (f g : node → node) (G1 G2 : Graph) :
  graph_iso (label self) f g G1 G2 →
  graph_symmetric G1 → graph_symmetric G2 →
  snd <$> Hasher_hash digest_of_counts self G1
  = snd <$> Hasher_hash digest_of_counts self G2.
Proof.
  intros Hiso Hs1 Hs2. unfold Hasher_hash.
  rewrite (canonicalize_edges_spec self G1 Hs1),
    (canonicalize_edges_spec self G2 Hs2).
  destruct (symmetric_edges self); simpl.
  - destruct (decide (labels_ok (label self) G1)) as [H1|H1].
    + rewrite decide_True by (by apply (labels_ok_iso _ _ _ _ _ Hiso)).
      simpl.
      rewrite (wl_iso _ _ _ _ _ (canon_graph_iso _ _ _ _ _ Hiso)).
      by destruct (wl _ _ _ _ _).
    + rewrite decide_False; [done|].
      by rewrite <- (labels_ok_iso _ _ _ _ _ Hiso).
  - rewrite (wl_iso _ _ _ _ _ Hiso). by destruct (wl _ _ _ _ _).
Qed.

(** ** Renamed graphs *)

Section relabel.
Variables f g : node → node.
Hypothesis cancel_l : ∀ u, g (f u) = u.
Hypothesis cancel_r : ∀ u, f (g u) = u.

#[local] Instance relabel_inj : Inj (=) (=) f.
Proof. intros u v. by apply (f_inj f g). Qed.

Lemma G_getitem_relabel G u v :
  G_getitem (relabel f G) (f u) (f v) = G_getitem G u v.
Proof.
  unfold G_getitem, G_adj, relabel; simpl.
  rewrite (lookup_kmap (M2 := gmap node) f), lookup_fmap.
  destruct (adj G !! u) as [nbrs|]; simpl.
  - exact (lookup_kmap (M2 := gmap node) f nbrs v).
  - by rewrite !lookup_empty.
Qed.

Lemma relabel_iso key G : graph_iso key f g G (relabel f G).
Proof.
  split; try done.
  - intros u. simpl. by rewrite (lookup_kmap (M2 := gmap node) f).
  - intros u. simpl. by rewrite (lookup_kmap (M2 := gmap node) f).
  - intros u v. by rewrite G_getitem_relabel.
Qed.
End relabel.

Lemma shift_residue_cancel k u : shift_residue (- k) (shift_residue k u) = u.
Proof.
  destruct u as [file [chain pos]]. unfold shift_residue; simpl.
  do 2 f_equal. lia.
Qed.

Lemma graph_symmetric_decide G :
  bool_decide (wf_graph G) = true → graph_symmetric G.
Proof. intros H. by apply wf_graph_symmetric, wf_graph_decide. Qed.

(** The doctest of [Hasher.hash]: the two paths get the same digest. *)
Lemma hash_invariant_under_isomorphism_witness :
  graph_iso "LW" (shift_residue 28) (shift_residue (-28))
    G1_doctest G2_doctest ∧
  graph_symmetric G1_doctest ∧ graph_symmetric G2_doctest ∧
  snd <$> Hasher_hash show_counts Hasher_default G1_doctest
  = snd <$> Hasher_hash show_counts Hasher_default G2_doctest ∧
  snd <$> Hasher_hash show_counts Hasher_default G1_doctest
  = Some "(B53B53B53B53,2)(B53B53B53B53B53B53,1)".
Proof.
  assert (graph_iso "LW" (shift_residue 28) (shift_residue (-28))
            G1_doctest G2_doctest) as Hiso.
  { assert (G2_doctest = relabel (shift_residue 28) G1_doctest) as ->
      by (vm_compute; reflexivity).
    apply relabel_iso.
    - intros u. apply (shift_residue_cancel 28).
    - intros u. rewrite <- (shift_residue_cancel (-28) u) at 2.
      reflexivity. }
  assert (graph_symmetric G1_doctest) as H1
    by (apply graph_symmetric_decide; vm_compute; reflexivity).
  assert (graph_symmetric G2_doctest) as H2
    by (apply graph_symmetric_decide; vm_compute; reflexivity).
  split; [exact Hiso|]. split; [exact H1|]. split; [exact H2|].
  split.
  - exact (hash_invariant_under_isomorphism show_counts Hasher_default
             _ _ _ _ Hiso H1 H2).
  - vm_compute. reflexivity.
Defined.

(** ** Graphlets of radius 0 *)

Lemma filter_key_singleton {V : Type} (m : gmap node V) (n : node) :
  filter (λ e, e.1 ∈ ({[ n ]} : gset node)) m =
  match m !! n with Some x => {[ n := x ]} | None => ∅ end.
Proof.
  apply map_eq. intros k. rewrite map_lookup_filter.
  destruct (decide (k = n)) as [->|Hk].
  - destruct (m !! n) as [x|]; simpl.
    + rewrite option_guard_True by set_solver.
      by rewrite lookup_singleton_eq.
    + by rewrite lookup_empty.
  - destruct (m !! k) as [y|]; simpl.
    + rewrite option_guard_False by set_solver.
      destruct (m !! n); [by rewrite lookup_singleton_ne|done].
    + destruct (m !! n); [by rewrite lookup_singleton_ne|done].
Qed.

(** The graphlet of radius 0 around [n]: the node [n], with its attributes,
    and its edge to itself when it has one. *)
Lemma extract_graphlet_0 G n lbl :
  extract_graphlet G n 0 lbl =
  mkGraph (is_directed G)
    (match node_data G !! n with Some dd => {[ n := dd ]} | None => ∅ end)
    (match adj G !! n with
     | Some nbrs =>
         {[ n := match nbrs !! n with
                 | Some dd => {[ n := dd ]}
                 | None => ∅
                 end ]}
     | None => ∅
     end).
Proof.
  unfold extract_graphlet, subgraph_copy; simpl. f_equal.
  - apply filter_key_singleton.
  - rewrite filter_key_singleton.
    destruct (adj G !! n) as [nbrs|]; [|by rewrite fmap_empty].
    rewrite map_fmap_singleton. f_equal. apply filter_key_singleton.
Qed.

Lemma G_edges_one_node dir n dd :
  G_edges (mkGraph dir {[ n := dd ]} {[ n := ∅ ]}) = [].
Proof.
  unfold G_edges; simpl. rewrite map_to_list_singleton.
  destruct dir; simpl; by rewrite map_to_list_empty.
Qed.

Lemma WL_step_edges_one_node dir n dd key :
  WL_step_edges (mkGraph dir {[ n := dd ]} {[ n := ∅ ]}) {[ n := "" ]} key
  = Some {[ n := "" ]}.
Proof.
  unfold WL_step_edges, dict_comp, G_nodes, nei_agg_edges, G_adj; simpl.
  rewrite map_to_list_singleton. simpl.
  rewrite !lookup_singleton_eq. simpl.
  rewrite map_to_list_empty. simpl. by rewrite insert_empty.
Qed.

Lemma wl_iterate_one_node dir n dd key iterations :
  wl_iterate (mkGraph dir {[ n := dd ]} {[ n := ∅ ]}) key iterations
    {[ n := "" ]} = Some {[ n := "" ]}.
Proof.
  induction iterations as [|k IH]; simpl; [done|].
  by rewrite WL_step_edges_one_node.
Qed.

(** A graph of one node without edges has the digest of the counts
    [[("", 1)]], whatever the node, its attributes and the hasher. *)
Lemma Hasher_hash_one_node digest_of_counts self dir n dd :
  Hasher_hash digest_of_counts self (mkGraph dir {[ n := dd ]} {[ n := ∅ ]})
  = Some (mkGraph dir {[ n := dd ]} {[ n := ∅ ]}, digest_of_counts [("", 1)]).
Proof.
  unfold Hasher_hash, canonicalize_edges.
  rewrite G_edges_one_node.
  assert ((if symmetric_edges self
           then for_each (canon_edge (label self))
                  (mkGraph dir {[ n := dd ]} {[ n := ∅ ]}) []
           else Some (mkGraph dir {[ n := dd ]} {[ n := ∅ ]}))
          = Some (mkGraph dir {[ n := dd ]} {[ n := ∅ ]})) as ->
    by (by destruct (symmetric_edges self)).
  simpl. unfold wl, init_node_labels, dict_comp, G_nodes; simpl.
  rewrite map_to_list_singleton. simpl. rewrite insert_empty.
  rewrite wl_iterate_one_node. simpl.
  rewrite map_to_list_singleton. simpl.
  unfold Counter; simpl. rewrite lookup_empty. simpl. rewrite insert_empty.
  by rewrite map_to_list_singleton.
Qed.

(** C2 (as amended). For a node [n] of [G] that has no edge to itself, the
    graphlet of radius 0 has the single node [n] and no edge, and its digest
    is the same for every node and every label: the digest of the counts
    [[("", 1)]]. *)
Theorem radius_0_graphlet
    (digest_of_counts : list (string * nat) → string)
    (self : Hasher) (G : Graph) (n : node) (lbl : string) :
  wf_graph G → n ∈ G_nodes G → G_getitem G n n = None →
  G_nodes (extract_graphlet G n 0 lbl) = [n] ∧
  G_edges (extract_graphlet G n 0 lbl) = [] ∧
  snd <$> Hasher_hash digest_of_counts self (extract_graphlet G n 0 lbl)
  = Some (digest_of_counts [("", 1)]).
Proof.
  intros [Hdom _] Hn Hloop. apply elem_of_keys in Hn as [dd Hdd].
  assert (is_Some (adj G !! n)) as [nbrs Hnbrs].
  { apply elem_of_dom. rewrite Hdom. apply elem_of_dom. by eexists. }
  assert (nbrs !! n = None) as Hnn.
  { unfold G_getitem, G_adj in Hloop. by rewrite Hnbrs in Hloop. }
  rewrite extract_graphlet_0, Hdd, Hnbrs, Hnn.
  split; [|split].
  - unfold G_nodes; simpl. by rewrite map_to_list_singleton.
  - apply G_edges_one_node.
  - by rewrite Hasher_hash_one_node.
Qed.

Lemma radius_0_graphlet_witness :
  wf_graph G1_doctest ∧ residue 627 ∈ G_nodes G1_doctest ∧
  G_getitem G1_doctest (residue 627) (residue 627) = None ∧
  G_nodes (extract_graphlet G1_doctest (residue 627) 0 "LW") = [residue 627] ∧
  G_edges (extract_graphlet G1_doctest (residue 627) 0 "LW") = [] ∧
  snd <$> Hasher_hash show_counts Hasher_default
            (extract_graphlet G1_doctest (residue 627) 0 "LW")
  = Some "(,1)".
Proof.
  assert (wf_graph G1_doctest) as Hwf
    by (apply wf_graph_decide; vm_compute; reflexivity).
  assert (residue 627 ∈ G_nodes G1_doctest) as Hn
    by (apply elem_of_keys; vm_compute; eexists; reflexivity).
  assert (G_getitem G1_doctest (residue 627) (residue 627) = None) as Hl
    by (vm_compute; reflexivity).
  split; [exact Hwf|]. split; [exact Hn|]. split; [exact Hl|].
  exact (radius_0_graphlet show_counts Hasher_default G1_doctest
           (residue 627) "LW" Hwf Hn Hl).
Defined.

(** Two nodes with different labels whose graphlets of radius 0 get the same
    digest, whatever the digest function. *)
Lemma radius_0_labels_ignored :
  node_data (labelled_node "A") !! residue 1 ≫= (.!! "LW") = Some "A" ∧
  node_data (labelled_node "G") !! residue 1 ≫= (.!! "LW") = Some "G" ∧
  ∀ digest_of_counts,
    snd <$> Hasher_hash digest_of_counts Hasher_default
              (extract_graphlet (labelled_node "A") (residue 1) 0 "LW")
    = snd <$> Hasher_hash digest_of_counts Hasher_default
                (extract_graphlet (labelled_node "G") (residue 1) 0 "LW").
Proof.
  split; [reflexivity|]. split; [reflexivity|]. intros d.
  rewrite !extract_graphlet_0. unfold labelled_node; simpl.
  rewrite !lookup_singleton_eq, lookup_empty.
  by rewrite !Hasher_hash_one_node.
Qed.

(** With an edge from the node to itself the graphlet of radius 0 has that
    edge. *)
Example radius_0_self_loop :
  G_edges (extract_graphlet looped_node (residue 1) 0 "LW")
  = [(residue 1, residue 1)].
Proof. vm_compute. reflexivity. Qed.

(** ** Graphs as objects *)

Import Heap.

Lemma store_base_ge (σ : store) (l : loc) :
  is_Some (σ !! l) → (l ≤ store_base σ)%positive.
Proof.
  unfold store_base. revert l.
  apply (map_fold_weak_ind
           (λ (r : loc) (m : store), ∀ l, is_Some (m !! l) → (l ≤ r)%positive)).
  - intros l [? H]. by rewrite lookup_empty in H.
  - intros i x m r Hi IH l Hl. destruct (decide (l = i)) as [->|Hne].
    + lia.
    + rewrite lookup_insert_ne in Hl by done. specialize (IH l Hl). lia.
Qed.

Lemma h_getitem_Some G u v l :
  h_getitem G u v = Some l ↔
  ∃ nbrs, h_adj G !! u = Some nbrs ∧ nbrs !! v = Some l.
Proof.
  unfold h_getitem. destruct (h_adj G !! u) as [nbrs|]; simpl.
  - naive_solver.
  - rewrite lookup_empty. naive_solver.
Qed.

Lemma elem_of_h_locs G l :
  l ∈ h_locs G ↔ ∃ u v, h_getitem G u v = Some l.
Proof.
  unfold h_locs. rewrite elem_of_list_to_set, list_elem_of_bind. split.
  - intros ([u nbrs] & Hl & Hu%elem_of_map_to_list). simpl in Hl.
    apply list_elem_of_fmap in Hl as ([v l'] & -> & Hv%elem_of_map_to_list).
    exists u, v. apply h_getitem_Some. eauto.
  - intros (u & v & (nbrs & Hu & Hv)%h_getitem_Some).
    exists (u, nbrs). split; [|by apply elem_of_map_to_list].
    simpl. apply list_elem_of_fmap. exists (v, l).
    split; [done|]. by apply elem_of_map_to_list.
Qed.

(** A graph reads the same in two stores that agree on its locations. *)
Lemma snapshot_ext (σ σ' : store) H :
  (∀ l, l ∈ h_locs H → σ' !! l = σ !! l) → snapshot σ' H = snapshot σ H.
Proof.
  intros Hagree. unfold snapshot. f_equal.
  apply map_fmap_ext. intros u nbrs Hu.
  apply map_fmap_ext. intros v l Hv.
  rewrite Hagree; [done|]. apply elem_of_h_locs. exists u, v.
  apply h_getitem_Some. eauto.
Qed.

Lemma copy_store_lookup (σ : store) (b : loc) (ls : list loc) :
  let σ' := foldr (λ l σ', <[Pos.add b l := default ∅ (σ !! l)]> σ') σ ls in
  (∀ k, (∀ l, l ∈ ls → k ≠ Pos.add b l) → σ' !! k = σ !! k) ∧
  (∀ l, l ∈ ls → σ' !! Pos.add b l = Some (default ∅ (σ !! l))).
Proof.
  induction ls as [|l0 ls [IH1 IH2]]; simpl.
  - split; [done|]. by intros l ?%elem_of_nil.
  - split.
    + intros k Hk. rewrite lookup_insert_ne.
      * apply IH1. intros l Hl. apply Hk. by right.
      * intros Heq. by apply (Hk l0); [left|].
    + intros l Hl. destruct (decide (l = l0)) as [->|Hne].
      * by rewrite lookup_insert_eq.
      * rewrite lookup_insert_ne by lia. apply IH2.
        by apply elem_of_cons in Hl as [?|?].
Qed.

(** What [copy()] does: the dictionaries in the store stay as they are,
    the copy holds locations that were not in use, and it reads as the
    graph copied. *)
Lemma h_copy_spec (σ σ' : store) (G G' : HGraph) :
  h_copy σ G = (σ', G') →
  (∀ k, is_Some (σ !! k) → σ' !! k = σ !! k) ∧
  (∀ l, l ∈ h_locs G' → σ !! l = None ∧ is_Some (σ' !! l)) ∧
  snapshot σ' G' = snapshot σ G.
Proof.
  unfold h_copy. intros [= <- <-].
  destruct (copy_store_lookup σ (store_base σ) (elements (h_locs G)))
    as [Hold Hnew].
  assert (∀ l, σ !! Pos.add (store_base σ) l = None) as Hfresh.
  { intros l. destruct (σ !! _) as [dd|] eqn:H; [|done].
    assert (Pos.add (store_base σ) l ≤ store_base σ)%positive
      by (by apply store_base_ge). lia. }
  split; [|split].
  - intros k Hk. apply Hold. intros l _ ->.
    rewrite Hfresh in Hk. by destruct Hk.
  - intros l' (u & v & (nbrs' & Hu & Hv)%h_getitem_Some)%elem_of_h_locs.
    simpl in Hu. rewrite lookup_fmap in Hu.
    destruct (h_adj G !! u) as [nbrs|] eqn:Hu'; [|done].
    simpl in Hu. injection Hu as <-. rewrite lookup_fmap in Hv.
    destruct (nbrs !! v) as [l|] eqn:Hv'; [|done].
    simpl in Hv. injection Hv as <-. split; [apply Hfresh|].
    rewrite Hnew; [done|]. apply elem_of_elements, elem_of_h_locs.
    exists u, v. apply h_getitem_Some. eauto.
  - unfold snapshot; simpl. f_equal. rewrite <- map_fmap_compose.
    apply map_fmap_ext. intros u nbrs Hu. simpl.
    rewrite <- map_fmap_compose.
    apply map_fmap_ext. intros v l Hv. simpl.
    rewrite Hnew; [done|]. apply elem_of_elements, elem_of_h_locs.
    exists u, v. apply h_getitem_Some. eauto.
Qed.

Lemma filter_key_fmap {A B : Type} (h : A → B) (m : gmap node A)
    (nbunch : gset node) :
  filter (λ e, e.1 ∈ nbunch) (h <$> m) = h <$> filter (λ e, e.1 ∈ nbunch) m.
Proof.
  apply map_eq. intros i.
  rewrite map_lookup_filter, !lookup_fmap, map_lookup_filter.
  destruct (m !! i) as [x|]; simpl; [|done].
  destruct (decide (i ∈ nbunch)).
  - by rewrite !option_guard_True.
  - by rewrite !option_guard_False.
Qed.

(** A subgraph view reads as the induced subgraph. *)
Lemma snapshot_subgraph (σ : store) (G : HGraph) (nbunch : gset node) :
  snapshot σ (h_subgraph G nbunch) = subgraph_copy (snapshot σ G) nbunch.
Proof.
  unfold snapshot, h_subgraph, subgraph_copy; simpl. f_equal.
  rewrite filter_key_fmap, <- !map_fmap_compose.
  apply map_fmap_ext. intros u nbrs _. simpl.
  by rewrite filter_key_fmap.
Qed.

(** A view holds locations of the graph it views. *)
Lemma h_locs_subgraph (G : HGraph) (nbunch : gset node) (l : loc) :
  l ∈ h_locs (h_subgraph G nbunch) → l ∈ h_locs G.
Proof.
  rewrite !elem_of_h_locs. intros (u & v & (nbrs' & Hu & Hv)%h_getitem_Some).
  simpl in Hu. rewrite lookup_fmap in Hu.
  destruct (filter _ (h_adj G) !! u) as [nbrs|] eqn:Hu'; [|done].
  simpl in Hu. injection Hu as <-.
  apply map_lookup_filter_Some in Hu' as [Hu' _].
  apply map_lookup_filter_Some in Hv as [Hv _].
  exists u, v. apply h_getitem_Some. eauto.
Qed.

(** The loop of [Hasher.hash] writes only into dictionaries of the graph it
    is given. *)
Lemma h_canon_edge_frame key G σ uv σ' :
  h_canon_edge key G σ uv = Some σ' →
  ∀ l, l ∉ h_locs G → σ' !! l = σ !! l.
Proof.
  destruct uv as [u v]. unfold h_canon_edge. intros Hstep l Hl.
  destruct (h_getitem G u v) as [l0|] eqn:Hg; [|done]. simpl in Hstep.
  destruct (σ !! l0) as [dd|]; [|done]. simpl in Hstep.
  destruct (dd !! key) as [lbl|]; [|done]. simpl in Hstep.
  destruct (decide (lbl ≠ "B53")); [|by simplify_eq].
  destruct lbl as [|p s]; [done|]. simplify_eq.
  rewrite lookup_insert_ne; [done|]. intros ->.
  apply Hl, elem_of_h_locs. by exists u, v.
Qed.

Lemma h_canonicalize_edges_frame self σ G σ' :
  h_canonicalize_edges self σ G = Some σ' →
  ∀ l, l ∉ h_locs G → σ' !! l = σ !! l.
Proof.
  unfold h_canonicalize_edges.
  destruct (symmetric_edges self); [|by intros [= <-]].
  generalize (h_edges G). intros es. revert σ.
  induction es as [|e es IH]; intros σ Hrun l Hl; simpl in Hrun.
  - by simplify_eq.
  - destruct (h_canon_edge (label self) G σ e) as [σ1|] eqn:Hstep;
      simpl in Hrun; [|done].
    rewrite (IH _ Hrun l Hl). by eapply h_canon_edge_frame.
Qed.

(** C7. [extract_graphlet] returns an independent copy.  The extraction
    leaves every dictionary of the store, hence the graph [G], as it was; the
    graphlet reads as the induced subgraph and its dictionaries are new; and
    a later write into a dictionary of the graphlet, in particular the
    canonicalisation [Hasher.hash] performs on it, changes neither [G] nor
    any graph that shares no dictionary with the graphlet, which is the case
    of every other graphlet extracted from [G], before or after. *)
Theorem extract_graphlet_independent
    (σ0 : store) (G : HGraph) (n : node) (size : nat) (lbl : string)
    (σ1 : store) (g1 : HGraph) :
  (∀ l, l ∈ h_locs G → is_Some (σ0 !! l)) →
  h_extract_graphlet σ0 G n size lbl = (σ1, g1) →
  (∀ l, is_Some (σ0 !! l) → σ1 !! l = σ0 !! l) ∧
  snapshot σ1 G = snapshot σ0 G ∧
  snapshot σ1 g1 = extract_graphlet (snapshot σ0 G) n size lbl ∧
  (∀ l, l ∈ h_locs g1 → σ0 !! l = None ∧ is_Some (σ1 !! l)) ∧
  h_locs G ## h_locs g1 ∧
  (∀ σ l dd H, l ∈ h_locs g1 → h_locs H ## h_locs g1 →
     snapshot (<[l := dd]> σ) H = snapshot σ H) ∧
  (∀ digest_of_counts self σ σ' h H,
     h_Hasher_hash digest_of_counts self σ g1 = Some (σ', h) →
     h_locs H ## h_locs g1 → snapshot σ' H = snapshot σ H) ∧
  (∀ σ n2 size2 lbl2 σ2 g2,
     (∀ l, l ∈ h_locs g1 → is_Some (σ !! l)) →
     h_extract_graphlet σ G n2 size2 lbl2 = (σ2, g2) →
     h_locs g2 ## h_locs g1) ∧
  (∀ σ G0 n2 size2 lbl2 g2,
     h_extract_graphlet σ G0 n2 size2 lbl2 = (σ0, g2) →
     h_locs g2 ## h_locs g1).
Proof.
  intros Hwf Hex. unfold h_extract_graphlet in Hex.
  destruct (h_copy_spec _ _ _ _ Hex) as (Hold & Hnew & Hsnap).
  assert (h_locs G ## h_locs g1) as Hdisj.
  { intros l HG Hg. destruct (Hnew l Hg) as [Hnone _].
    destruct (Hwf l HG) as [? Hsome]. congruence. }
  split; [done|]. split.
  { apply snapshot_ext. intros l Hl. by apply Hold, Hwf. }
  split.
  { by rewrite Hsnap, snapshot_subgraph. }
  split; [done|]. split; [done|]. split.
  { intros σ l dd H Hl HH. apply snapshot_ext. intros l' Hl'.
    rewrite lookup_insert_ne; [done|]. intros ->. by apply (HH l'). }
  split.
  { intros d self σ σ' h H Hhash HH. unfold h_Hasher_hash in Hhash.
    destruct (h_canonicalize_edges self σ g1) as [σc|] eqn:Hc;
      simpl in Hhash; [|done].
    destruct (wl _ _ _ _ _); simpl in Hhash; [|done]. simplify_eq.
    apply snapshot_ext. intros l Hl.
    eapply h_canonicalize_edges_frame; [done|]. intros Hg. by apply (HH l). }
  split.
  { intros σ n2 size2 lbl2 σ2 g2 Hσ Hex2 l H2 H1.
    unfold h_extract_graphlet in Hex2.
    destruct (h_copy_spec _ _ _ _ Hex2) as (_ & Hnew2 & _).
    destruct (Hnew2 l H2) as [Hnone _]. destruct (Hσ l H1) as [? Hsome].
    congruence. }
  intros σ G0 n2 size2 lbl2 g2 Hex2 l H2 H1.
  unfold h_extract_graphlet in Hex2.
  destruct (h_copy_spec _ _ _ _ Hex2) as (_ & Hnew2 & _).
  destruct (Hnew2 l H2) as [_ [? Hsome]]. destruct (Hnew l H1) as [Hnone _].
  congruence.
Qed.

(** The graphlet around the first residue of [H_pair] is hashed: its own
    label becomes canonical, the labels of [H_pair] stay as they were. *)
Lemma extract_graphlet_independent_witness :
  let r := h_extract_graphlet store_pair H_pair (residue 1) 1 "LW" in
  (∀ l, l ∈ h_locs H_pair → is_Some (store_pair !! l)) ∧
  snapshot r.1 H_pair = G_pair ∧
  snapshot r.1 r.2 = G_pair ∧
  ∃ σ' h,
    h_Hasher_hash show_counts Hasher_default r.1 r.2 = Some (σ', h) ∧
    snapshot σ' H_pair = G_pair ∧
    snapshot σ' r.2 = canon_graph "LW" G_pair.
Proof.
  intros r.
  assert (∀ l, l ∈ h_locs H_pair → is_Some (store_pair !! l)) as Hwf.
  { intros l Hl. vm_compute in Hl.
    destruct l as [p|[p|p|]|]; try discriminate Hl; by eexists. }
  assert (h_extract_graphlet store_pair H_pair (residue 1) 1 "LW"
          = (r.1, r.2)) as Hex by apply surjective_pairing.
  destruct (extract_graphlet_independent _ _ _ _ _ _ _ Hwf Hex)
    as (_ & HG & _ & _ & Hdisj & _ & Hhash & _).
  split; [exact Hwf|].
  assert (snapshot store_pair H_pair = G_pair) as Hs0
    by (vm_compute; reflexivity).
  split; [by rewrite HG|]. split; [vm_compute; reflexivity|].
  destruct (h_Hasher_hash show_counts Hasher_default r.1 r.2)
    as [[σ' h]|] eqn:Hh; [|by vm_compute in Hh].
  exists σ', h. split; [reflexivity|]. split.
  - rewrite (Hhash _ _ _ _ _ H_pair Hh Hdisj). by rewrite HG.
  - vm_compute in Hh. injection Hh as <- _. vm_compute. reflexivity.
Defined.

(** * Further properties of the code *)

(** ** The canonical form of a label *)

Lemma sorted_chars_spec (s : string) :
  sorted_chars s ≡ₚ list_ascii_of_string s ∧
  StronglySorted ascii_le (sorted_chars s).
Proof.
  unfold sorted_chars, sorted. split.
  - apply merge_sort_Permutation.
  - apply StronglySorted_merge_sort; apply _.
Qed.

Lemma string_length_of_list (l : list ascii) :
  String.length (string_of_list_ascii l) = length l.
Proof. induction l as [|a l IH]; simpl; [done|]. by rewrite IH. Qed.

Lemma string_length_to_list (s : string) :
  length (list_ascii_of_string s) = String.length s.
Proof. induction s as [|a s IH]; simpl; [done|]. by rewrite IH. Qed.

(** X1. Symmetry of the canonical form: two labels with the same first
    character whose remaining characters are the same up to order, neither
    of them the backbone label, have the same canonical form. *)
Theorem canonicalize_symmetric (o : ascii) (s1 s2 : string) :
  list_ascii_of_string s1 ≡ₚ list_ascii_of_string s2 →
  String o s1 ≠ "B53" → String o s2 ≠ "B53" →
  canonicalize (String o s1) = canonicalize (String o s2).
Proof.
  intros Hp H1 H2. unfold canonicalize. rewrite !decide_True by done.
  do 3 f_equal. by apply (sorted_perm ascii_le).
Qed.

Lemma canonicalize_symmetric_witness :
  list_ascii_of_string "SH" ≡ₚ list_ascii_of_string "HS" ∧
  canonicalize "CSH" = canonicalize "CHS".
Proof.
  assert (list_ascii_of_string "SH" ≡ₚ list_ascii_of_string "HS") as Hp
    by apply perm_swap.
  split; [exact Hp|].
  apply (canonicalize_symmetric "C" "SH" "HS" Hp); discriminate.
Defined.

(** X2. The shape of the canonical form: a label other than the backbone
    label keeps its first character and its length, and its remaining
    characters are the same characters in ascending order; the backbone
    label is returned as it is. *)
Theorem canonicalize_shape (l c : string) :
  canonicalize l = Some c →
  String.length c = String.length l ∧
  ((l = "B53" ∧ c = "B53") ∨
   ∃ o s s', l = String o s ∧ c = String o s' ∧ l ≠ "B53" ∧
     list_ascii_of_string s' ≡ₚ list_ascii_of_string s ∧
     StronglySorted ascii_le (list_ascii_of_string s')).
Proof.
  unfold canonicalize. intros H.
  destruct (decide (l ≠ "B53")) as [Hl|Hl].
  - destruct l as [|o s]; [done|]. injection H as <-.
    destruct (sorted_chars_spec s) as [Hp Hs]. split.
    + simpl. unfold join_chars. rewrite string_length_of_list.
      by rewrite Hp, string_length_to_list.
    + right. exists o, s, (join_chars (sorted_chars s)).
      unfold join_chars. rewrite list_ascii_of_string_of_list_ascii.
      by repeat split.
  - injection H as <-. split; [done|]. left.
    by apply dec_stable in Hl.
Qed.

Lemma canonicalize_shape_witness :
  canonicalize "TWH" = Some "THW" ∧
  String.length "THW" = String.length "TWH".
Proof.
  assert (canonicalize "TWH" = Some "THW") as H by reflexivity.
  split; [exact H|]. exact (proj1 (canonicalize_shape "TWH" "THW" H)).
Defined.

(** ** The tables of the module *)

(** X3. [edge_map] agrees with the canonicaliser: two labels of the table
    have the same index exactly when they have the same canonical form. *)
Theorem edge_map_canonical (l1 l2 : string) (i1 i2 : nat) :
  edge_map !! l1 = Some i1 → edge_map !! l2 = Some i2 →
  i1 = i2 ↔ canonicalize l1 = canonicalize l2.
Proof.
  intros H1 H2.
  assert (map_Forall (λ l1 i1, map_Forall (λ l2 i2,
            bool_decide (i1 = i2)
            = bool_decide (canonicalize l1 = canonicalize l2))
            edge_map) edge_map) as Hall.
  { apply (bool_decide_unpack _). vm_compute. exact I. }
  specialize (Hall l1 i1 H1 l2 i2 H2). cbv beta in Hall. revert Hall.
  rewrite !bool_decide_decide.
  destruct (decide (i1 = i2)),
    (decide (canonicalize l1 = canonicalize l2)); naive_solver.
Qed.

Lemma edge_map_canonical_witness :
  edge_map !! "TSW" = Some 11 ∧ edge_map !! "TWS" = Some 11 ∧
  canonicalize "TSW" = canonicalize "TWS".
Proof.
  assert (edge_map !! "TSW" = Some 11) as H1 by reflexivity.
  assert (edge_map !! "TWS" = Some 11) as H2 by reflexivity.
  split; [exact H1|]. split; [exact H2|].
  exact (proj1 (edge_map_canonical "TSW" "TWS" 11 11 H1 H2) eq_refl).
Defined.

(** X4. The set [labels] is the set of keys of [edge_map]: 19 labels.  The
    canonicaliser is defined on each of them and maps it to one of them,
    and their canonical forms are 13 labels, as many as the indices of
    [edge_map]. *)
Theorem labels_closed :
  labels = dom edge_map ∧ size labels = 19 ∧
  ∃ cs, mapM canonicalize (elements labels) = Some cs ∧
    list_to_set cs ⊆ labels ∧
    size (list_to_set (C := gset string) cs) = 13 ∧
    size (list_to_set (C := gset nat) (map_to_list edge_map).*2) = 13.
Proof.
  split; [by vm_compute|]. split; [by vm_compute|].
  destruct (mapM canonicalize (elements labels)) as [cs|] eqn:Hcs;
    [|by vm_compute in Hcs].
  exists cs. split; [done|]. vm_compute in Hcs. injection Hcs as <-.
  split; [|split; by vm_compute].
  apply (bool_decide_unpack _). vm_compute. exact I.
Qed.

(** ** What the canonicalisation loop does to a graph *)

Lemma canonicalize_None (l : string) : canonicalize l = None ↔ l = "".
Proof.
  unfold canonicalize. destruct (decide (l ≠ "B53")) as [Hl|Hl].
  - by destruct l.
  - apply dec_stable in Hl. subst l. split; discriminate.
Qed.

Lemma not_label_ok key (dd : attrs) :
  ¬ label_ok key dd ↔ dd !! key = None ∨ dd !! key = Some "".
Proof.
  unfold label_ok. destruct (dd !! key) as [l|]; simpl.
  - rewrite <- not_eq_None_Some, canonicalize_None. split.
    + intros Hnn. right. f_equal. by apply dec_stable.
    + intros [?|[= ->]] Hnn; [done|]. by apply Hnn.
  - split; [by left|]. by intros _ [? ?].
Qed.

Lemma not_labels_ok key G :
  ¬ labels_ok key G ↔
  ∃ u v dd, G_getitem G u v = Some dd ∧
    (dd !! key = None ∨ dd !! key = Some "").
Proof.
  rewrite labels_ok_getitem. split.
  - intros H. destruct (decide (labels_ok key G)) as [Hok|Hno].
    { exfalso. apply H. by apply labels_ok_getitem. }
    unfold labels_ok in Hno.
    apply map_not_Forall in Hno as (u & nbrs & Hu & Hno); [|apply _].
    apply map_not_Forall in Hno as (v & dd & Hv & Hno); [|apply _].
    exists u, v, dd. split; [apply G_getitem_Some; eauto|].
    by apply not_label_ok.
  - intros (u & v & dd & Hg & Hbad) H.
    by apply (not_label_ok key dd); [|eapply H].
Qed.

(** X5. The [if self.symmetric_edges:] loop of [Hasher.hash] raises exactly
    when some edge has no label attribute or has the empty label.  When it
    does not raise it keeps the nodes, their attributes and the edges of
    the graph, replaces the label of every edge by its canonical form and
    leaves every other edge attribute as it is. *)
Theorem canonicalize_edges_effect (self : Hasher) (G : Graph) :
  graph_symmetric G → symmetric_edges self = true →
  (canonicalize_edges self G = None ↔
   ∃ u v dd, G_getitem G u v = Some dd ∧
     (dd !! label self = None ∨ dd !! label self = Some "")) ∧
  ∀ G', canonicalize_edges self G = Some G' →
    is_directed G' = is_directed G ∧ node_data G' = node_data G ∧
    dom (adj G') = dom (adj G) ∧
    ∀ u v,
      match G_getitem G u v with
      | None => G_getitem G' u v = None
      | Some dd =>
          ∃ dd', G_getitem G' u v = Some dd' ∧
            dd' !! label self = dd !! label self ≫= canonicalize ∧
            ∀ k, k ≠ label self → dd' !! k = dd !! k
      end.
Proof.
  intros Hsym Hse. rewrite (canonicalize_edges_spec self G Hsym), Hse.
  destruct (decide (labels_ok (label self) G)) as [Hok|Hno]; split.
  - split; [done|]. intros Hbad. exfalso.
    by apply (not_labels_ok (label self) G).
  - intros G' [= <-]. simpl. split; [done|]. split; [done|].
    split; [by rewrite dom_fmap_L|].
    intros u v. rewrite G_getitem_canon_graph.
    destruct (G_getitem G u v) as [dd|] eqn:Hg; simpl; [|done].
    exists (canon_attrs (label self) dd). split; [done|].
    rewrite labels_ok_getitem in Hok. destruct (Hok u v dd Hg) as [c Hc].
    unfold canon_attrs. rewrite Hc. split.
    + by rewrite lookup_insert_eq.
    + intros k Hk. by rewrite lookup_insert_ne.
  - split; [|done]. intros _. by apply not_labels_ok.
  - by intros G' [=].
Qed.

Lemma canonicalize_edges_effect_witness :
  graph_symmetric G_pair ∧ symmetric_edges Hasher_default = true ∧
  ∃ G', canonicalize_edges Hasher_default G_pair = Some G' ∧
    node_data G' = node_data G_pair ∧
    G_getitem G' (residue 1) (residue 2) = Some {[ "LW" := "CHS" ]}.
Proof.
  assert (graph_symmetric G_pair) as Hsym by (intros Hd; discriminate Hd).
  split; [exact Hsym|]. split; [reflexivity|].
  destruct (canonicalize_edges Hasher_default G_pair) as [G'|] eqn:Hrun;
    [|by vm_compute in Hrun].
  exists G'. split; [reflexivity|].
  destruct (canonicalize_edges_effect Hasher_default G_pair Hsym eq_refl)
    as [_ Heff].
  destruct (Heff G' Hrun) as (_ & Hnodes & _ & _). split; [exact Hnodes|].
  vm_compute in Hrun. injection Hrun as <-. vm_compute. reflexivity.
Defined.
